(** * PageRank: a shallow embedding of [pagerank.py]

    Python dictionaries are association lists that keep insertion order (the
    order in which [for key in corpus] visits the pages is observable: ranks
    are overwritten in place during a pass), Python sets are [gset string],
    raised exceptions are values of an error monad, the [while] loop runs on
    fuel and the random source is an explicit argument.  A dictionary that
    the code mutates and that the caller can see afterwards ([corpus] in
    [iterate_pagerank]) is returned next to the result.

    The source computes in binary64.  [transition_model], [sample_pagerank]
    and [iterate_pagerank] are embedded over exact rational arithmetic
    ([Qc]): this is the reading of the properties that are worded for exact
    arithmetic, and it is immaterial to those that concern keys, order,
    exceptions and what is overwritten.  Whether the loop of
    [iterate_pagerank] stops is decided by rounding, so lines 136-161 are
    embedded a second time in [Binary64], over the binary64 numbers of the
    kernel and with the same operations in the same order as the source. *)

From Stdlib Require Import QArith Qcanon Qround Lqa Floats.
From stdpp Require Import base numbers list gmap strings.

Open Scope string_scope.
Open Scope list_scope.
Open Scope Qc_scope.

(** ** Exceptions *)

Inductive exn := KeyError | IndexError | ValueError | ZeroDivisionError.

Inductive result (A : Type) :=
  | Ok (a : A)
  | Raise (e : exn).
Arguments Ok {A} a.
Arguments Raise {A} e.

#[global] Instance exn_eq_dec : EqDecision exn.
Proof. solve_decision. Defined.
#[global] Instance result_eq_dec `{EqDecision A} : EqDecision (result A).
Proof. solve_decision. Defined.

#[global] Instance result_ret : MRet result := λ A a, Ok a.
#[global] Instance result_bind : MBind result := λ A B f m,
  match m with
  | Ok a => f a
  | Raise e => Raise e
  end.

(** ** Numbers *)

Definition Qc_of_nat (n : nat) : Qc := Qc_of_Z (Z.of_nat n).

(** Python's true division [a / b]. *)
Definition pydiv (a b : Qc) : result Qc :=
  if decide (b = 0) then Raise ZeroDivisionError else Ok (a / b).

(** [abs] *)
Definition Qcabs (x : Qc) : Qc := if decide (x < 0) then - x else x.

Fixpoint Qcsum (l : list Qc) : Qc :=
  match l with
  | [] => 0
  | x :: l => x + Qcsum l
  end.

(** ** Dictionaries in insertion order *)

Module Dict.

Abbreviation t V := (list (string * V)).

Definition keys {V} (d : t V) : list string := d.*1.
Definition values {V} (d : t V) : list V := d.*2.

(** [d.get(k)] *)
Fixpoint get {V} (d : t V) (k : string) : option V :=
  match d with
  | [] => None
  | (k', v) :: d => if decide (k' = k) then Some v else get d k
  end.

(** [d[k]] *)
Definition item {V} (d : t V) (k : string) : result V :=
  match get d k with
  | Some v => Ok v
  | None => Raise KeyError
  end.

(** [d[k] = v]: an existing key keeps its position, a new one goes last. *)
Fixpoint set {V} (d : t V) (k : string) (v : V) : t V :=
  match d with
  | [] => [(k, v)]
  | (k', v') :: d => if decide (k' = k) then (k, v) :: d else (k', v') :: set d k v
  end.

Definition wf {V} (d : t V) : Prop := NoDup (keys d).

End Dict.

Abbreviation corpus_t := (Dict.t (gset string)).

(** Truth value of a set: non-empty. *)
Definition truthy (s : gset string) : bool := bool_decide (s ≠ ∅).

(** ** [transition_model] *)

Definition transition_model (corpus : corpus_t) (page : string) (damping_factor : Qc)
  : result (Dict.t Qc) :=
  let n := Qc_of_nat (length corpus) in
  joins ← Dict.item corpus page;
  pro ← (if truthy joins then
           random_pro ← pydiv (1 - damping_factor) n;
           link_pro ← pydiv damping_factor (Qc_of_nat (size joins));
           Ok (random_pro, link_pro)
         else
           random_pro ← pydiv 1 n;
           Ok (random_pro, 0));
  let '(random_pro, link_pro) := pro in
  Ok (foldl (λ probability key,
               if decide (key ∈ joins)
               then Dict.set probability key (link_pro + random_pro)
               else Dict.set probability key random_pro)
            [] (Dict.keys corpus)).

(** ** The random source

    [randbits] stands for the bits consumed by [random.choice]; [random i]
    is the value returned by the [i]-th call of [random()] made by
    [random.choices]. *)

Record rng := { randbits : nat; random : nat → Qc }.

(** [random.choice(seq)] *)
Definition choice (g : rng) (seq : list string) : result string :=
  match seq !! (randbits g mod length seq)%nat with
  | Some x => Ok x
  | None => Raise IndexError
  end.

(** [itertools.accumulate(weights)] *)
Fixpoint accumulate (acc : Qc) (weights : list Qc) : list Qc :=
  match weights with
  | [] => []
  | w :: weights => (acc + w) :: accumulate (acc + w) weights
  end.

(** [bisect.bisect_right(a, x, lo, hi)]; the distance [hi - lo] shrinks at
    every step, so [fuel = hi - lo] is enough. *)
Fixpoint bisect (fuel : nat) (a : list Qc) (x : Qc) (lo hi : nat) : nat :=
  match fuel with
  | O => lo
  | S fuel =>
    if decide (lo < hi)%nat then
      let mid := ((lo + hi) / 2)%nat in
      if decide (x < default 0 (a !! mid))
      then bisect fuel a x lo mid
      else bisect fuel a x (mid + 1) hi
    else lo
  end.

(** [random.choices(population, weights, k=1)[0]] as the standard library
    computes it, with [u] the value of [random()]: the cumulative weights
    are searched for [u * total] between indices [0] and [n - 1]. *)
Definition choices (u : Qc) (population : list string) (weights : list Qc)
  : result string :=
  let n := length population in
  let cum_weights := accumulate 0 weights in
  if decide (length cum_weights = n) then
    match last cum_weights with
    | None => Raise IndexError
    | Some total =>
      if decide (total ≤ 0) then Raise ValueError
      else
        let hi := (n - 1)%nat in
        match population !! bisect hi cum_weights (u * total) 0 hi with
        | Some x => Ok x
        | None => Raise IndexError
        end
    end
  else Raise ValueError.

(** A [for] loop whose body may raise. *)
Fixpoint foldM {A B} (f : A → B → result A) (a : A) (l : list B) : result A :=
  match l with
  | [] => Ok a
  | x :: l => a' ← f a x; foldM f a' l
  end.

(** ** [sample_pagerank] *)

(** Lines 91-93: the memoised transition models. *)
Definition memoise (corpus : corpus_t) (damping_factor : Qc)
  : result (Dict.t (Dict.t Qc)) :=
  foldM (λ probability i,
           dist ← transition_model corpus i damping_factor;
           Ok (Dict.set probability i dist))
        [] (Dict.keys corpus).

(** Line 101. *)
Definition next_state (g : rng) (probability : Dict.t (Dict.t Qc))
    (state : string) (i : nat) : result string :=
  dist ← Dict.item probability state;
  choices (random g i) (Dict.keys dist) (Dict.values dist).

(** Lines 98-101: one step of the walk. *)
Definition sample_step (g : rng) (probability : Dict.t (Dict.t Qc))
    (st : string * Dict.t nat) (i : nat) : result (string * Dict.t nat) :=
  let '(state, ans) := st in
  let ans := Dict.set ans state (default 0%nat (Dict.get ans state) + 1)%nat in
  state ← next_state g probability state i;
  Ok (state, ans).

(** Lines 103-104: every counter becomes a ratio; keys and their order stay
    as they are. *)
Definition normalise (n : nat) (ans : Dict.t nat) : result (Dict.t Qc) :=
  foldM (λ out '(key, count),
           v ← pydiv (Qc_of_nat count) (Qc_of_nat n);
           Ok (Dict.set out key v))
        [] ans.

Definition sample_pagerank (g : rng) (corpus : corpus_t) (damping_factor : Qc)
    (n : nat) : result (Dict.t Qc) :=
  probability ← memoise corpus damping_factor;
  state ← choice g (Dict.keys corpus);
  st ← foldM (sample_step g probability) (state, []) (seq 0 n);
  normalise n st.2.

(** ** [iterate_pagerank] *)

(** Lines 119-121: every empty outbound set is overwritten, in the
    dictionary that was passed in, by the set of all pages. *)
Definition fill_dangling (corpus : corpus_t) : corpus_t :=
  foldl (λ c '(key, joins),
           if truthy joins then c
           else Dict.set c key (list_to_set (Dict.keys c)))
        corpus corpus.

(** What line 121 leaves in the dictionary for an entry [e], with [pages]
    the set of all pages. *)
Definition filled (pages : gset string) (e : string * gset string)
  : string * gset string :=
  (e.1, if truthy e.2 then e.2 else pages).

(** Lines 128-133. *)
Definition add_reverse (key : string) (links : Dict.t (gset string)) (i : string)
  : Dict.t (gset string) :=
  match Dict.get links i with
  | Some val =>
      if truthy val then Dict.set links i ({[key]} ∪ val)
      else Dict.set links i {[key]}
  | None => Dict.set links i {[key]}
  end.

(** Lines 122-133: the reverse index.  It is only ever read by key, so the
    order in which a set is enumerated does not show in the result. *)
Definition reverse_links (corpus : corpus_t) : Dict.t (gset string) :=
  foldl (λ links '(key, joins),
           if truthy joins then foldl (add_reverse key) links (elements joins)
           else links)
        [] corpus.

(** Lines 136-138. *)
Definition init_ranks (corpus : corpus_t) (n : Qc) : result (Dict.t Qc) :=
  foldM (λ pr i, v ← pydiv 1 n; Ok (Dict.set pr i v)) [] (Dict.keys corpus).

(** Lines 147-148: one term of the sum. *)
Definition add_share (corpus : corpus_t) (pr : Dict.t Qc) (sumation : Qc)
    (j : string) : result Qc :=
  prj ← Dict.item pr j;
  joins ← Dict.item corpus j;
  share ← pydiv prj (Qc_of_nat (size joins));
  Ok (sumation + share).

(** Lines 144-149 and 156: the value computed for page [i] from the current
    contents of [pr].  The sum runs over the set [links[i]]; in exact
    arithmetic its value does not depend on the order of enumeration. *)
Definition new_value (corpus : corpus_t) (links : Dict.t (gset string))
    (damping_factor n : Qc) (pr : Dict.t Qc) (i : string) : result Qc :=
  match Dict.get links i with
  | Some back =>
      sumation ← foldM (add_share corpus pr) 0 (elements back);
      base ← pydiv (1 - damping_factor) n;
      Ok (base + damping_factor * sumation)
  | None => pydiv (1 - damping_factor) n
  end.

Definition threshold : Qc := Q2Qc (1 # 1000).

(** Lines 143-160: the body of the [for] loop; [pr] is overwritten at once. *)
Definition pass_step (corpus : corpus_t) (links : Dict.t (gset string))
    (damping_factor n : Qc) (st : Dict.t Qc * bool) (i : string)
  : result (Dict.t Qc * bool) :=
  let '(pr, change) := st in
  new ← new_value corpus links damping_factor n pr i;
  old ← Dict.item pr i;
  let diff := Qcabs (old - new) in
  Ok (Dict.set pr i new, if decide (threshold ≤ diff) then true else change).

(** Lines 142-160: one full pass. *)
Definition pass (corpus : corpus_t) (links : Dict.t (gset string))
    (damping_factor n : Qc) (pr : Dict.t Qc) : result (Dict.t Qc * bool) :=
  foldM (pass_step corpus links damping_factor n) (pr, false) (Dict.keys corpus).

(** Lines 141-161: [while change].  [None] means that the fuel ran out. *)
Fixpoint while_change (fuel : nat) (corpus : corpus_t)
    (links : Dict.t (gset string)) (damping_factor n : Qc)
    (pr : Dict.t Qc) (change : bool) : option (result (Dict.t Qc)) :=
  if change then
    match fuel with
    | O => None
    | S fuel =>
      match pass corpus links damping_factor n pr with
      | Ok (pr, change) => while_change fuel corpus links damping_factor n pr change
      | Raise e => Some (Raise e)
      end
    end
  else Some (Ok pr).

(** The function returns the dictionary it was given, as the caller sees it
    afterwards, together with its outcome. *)
Definition iterate_pagerank (fuel : nat) (corpus : corpus_t) (damping_factor : Qc)
  : corpus_t * option (result (Dict.t Qc)) :=
  let n := Qc_of_nat (length corpus) in
  let corpus := fill_dangling corpus in
  let links := reverse_links corpus in
  (corpus,
   match init_ranks corpus n with
   | Ok pr => while_change fuel corpus links damping_factor n pr true
   | Raise e => Some (Raise e)
   end).

(** ** [iterate_pagerank] in binary64

    Lines 136-161 once more, over the binary64 numbers of the kernel
    ([float], IEEE 754 with rounding to nearest even, the arithmetic of
    Python's [float]): here every operation rounds, and a comparison with
    [nan] is false.  The rewriting of the corpus and the reverse index
    (lines 117-133) involve no arithmetic and are shared with the embedding
    above.

    Line 147 visits a set; the order in which Python does so depends on the
    hashes of the strings and is not fixed by the program, and with rounding
    the sum depends on it.  [enum i s] is the order in which the set [s]
    stored under [links[i]] is visited; see [enumerates]. *)

Module Binary64.

(** [float(n)] for a length [n]; exact below [2^53]. *)
Definition of_nat (n : nat) : float :=
  PrimFloat.of_uint63 (Uint63.of_Z (Z.of_nat n)).

(** [x / n] for an integer [n]: every divisor in [iterate_pagerank] is a
    length. *)
Definition pydiv (x : float) (n : nat) : result float :=
  if decide (n = 0%nat) then Raise ZeroDivisionError
  else Ok (x / of_nat n)%float.

(** The literal [0.001]: the double nearest to it. *)
Definition threshold : float := 0x1.0624dd2f1a9fcp-10%float.

(** Lines 136-138. *)
Definition init_ranks (corpus : corpus_t) (n : nat) : result (Dict.t float) :=
  foldM (λ pr i, v ← pydiv 1 n; Ok (Dict.set pr i v)) [] (Dict.keys corpus).

(** Lines 147-148: one term of the sum. *)
Definition add_share (corpus : corpus_t) (pr : Dict.t float) (sumation : float)
    (j : string) : result float :=
  prj ← Dict.item pr j;
  joins ← Dict.item corpus j;
  share ← pydiv prj (size joins);
  Ok (sumation + share)%float.

(** Lines 144-149 and 156. *)
Definition new_value (enum : string → gset string → list string)
    (corpus : corpus_t) (links : Dict.t (gset string))
    (damping_factor : float) (n : nat) (pr : Dict.t float) (i : string)
  : result float :=
  match Dict.get links i with
  | Some back =>
      sumation ← foldM (add_share corpus pr) 0%float (enum i back);
      base ← pydiv (1 - damping_factor) n;
      Ok (base + damping_factor * sumation)%float
  | None => pydiv (1 - damping_factor) n
  end.

(** Lines 143-160: the body of the [for] loop; [diff >= 0.001] is false
    when [diff] is [nan]. *)
Definition pass_step (enum : string → gset string → list string)
    (corpus : corpus_t) (links : Dict.t (gset string))
    (damping_factor : float) (n : nat) (st : Dict.t float * bool) (i : string)
  : result (Dict.t float * bool) :=
  let '(pr, change) := st in
  new ← new_value enum corpus links damping_factor n pr i;
  old ← Dict.item pr i;
  let diff := PrimFloat.abs (old - new) in
  Ok (Dict.set pr i new, if (threshold <=? diff)%float then true else change).

(** Lines 142-160: one full pass. *)
Definition pass (enum : string → gset string → list string)
    (corpus : corpus_t) (links : Dict.t (gset string))
    (damping_factor : float) (n : nat) (pr : Dict.t float)
  : result (Dict.t float * bool) :=
  foldM (pass_step enum corpus links damping_factor n) (pr, false)
        (Dict.keys corpus).

(** Lines 141-161: [while change].  [None] means that the fuel ran out. *)
Fixpoint while_change (enum : string → gset string → list string) (fuel : nat)
    (corpus : corpus_t) (links : Dict.t (gset string))
    (damping_factor : float) (n : nat)
    (pr : Dict.t float) (change : bool) : option (result (Dict.t float)) :=
  if change then
    match fuel with
    | O => None
    | S fuel =>
      match pass enum corpus links damping_factor n pr with
      | Ok (pr, change) =>
          while_change enum fuel corpus links damping_factor n pr change
      | Raise e => Some (Raise e)
      end
    end
  else Some (Ok pr).

Definition iterate_pagerank (enum : string → gset string → list string)
    (fuel : nat) (corpus : corpus_t) (damping_factor : float)
  : corpus_t * option (result (Dict.t float)) :=
  let n := length corpus in
  let corpus := fill_dangling corpus in
  let links := reverse_links corpus in
  (corpus,
   match init_ranks corpus n with
   | Ok pr => while_change enum fuel corpus links damping_factor n pr true
   | Raise e => Some (Raise e)
   end).

End Binary64.

(** Whatever the order in which a set is visited, every element comes up
    once. *)
Definition enumerates (enum : string → gset string → list string) : Prop :=
  ∀ i s, enum i s ≡ₚ elements s.

(** ** [crawl]

    The directory is given as the list of its entries, file name and
    contents, in the order of [os.listdir], as the listing of line 33 and
    the reads of lines 36-37 deliver them; what [os.listdir], [open] and
    [read] raise themselves (a missing directory, an entry that is no
    readable text file) lies before this embedding begins.  [findall] stands
    for [re.findall] with the pattern of line 38, applied to the contents of
    a file. *)

(** [s.endswith(suffix)] *)
Definition endswith (s suffix : string) : bool :=
  String.prefix (String.rev suffix) (String.rev s).

(** Lines 34-39: one directory entry. *)
Definition crawl_read (findall : string → list string) (pages : corpus_t)
    (entry : string * string) : corpus_t :=
  let '(filename, contents) := entry in
  if endswith filename ".html" then
    let links := findall contents in
    Dict.set pages filename (list_to_set links ∖ {[filename]})
  else pages.

(** What lines 43-46 leave of an entry [e]: its links to one of [pages]. *)
Definition kept (pages : list string) (e : string * gset string)
  : string * gset string :=
  (e.1, filter (λ link, link ∈ pages) e.2).

(** Lines 43-46: the links of one page are cut down to the pages of the
    corpus. *)
Definition crawl_keep (pages : corpus_t) (filename : string) : result corpus_t :=
  links ← Dict.item pages filename;
  Ok (Dict.set pages filename (filter (λ link, link ∈ Dict.keys pages) links)).

Definition crawl (findall : string → list string)
    (directory : list (string * string)) : result corpus_t :=
  let pages := foldl (crawl_read findall) [] directory in
  foldM crawl_keep pages (Dict.keys pages).

(** ** The graph invariants of the data model *)

Definition all_pages (corpus : corpus_t) : gset string :=
  list_to_set (Dict.keys corpus).

(** Every outbound link is itself a page. *)
Definition links_closed (corpus : corpus_t) : Prop :=
  Forall (λ e, e.2 ⊆ all_pages corpus) corpus.

(** No page links to itself. *)
Definition no_self_links (corpus : corpus_t) : Prop :=
  Forall (λ e, e.1 ∉ e.2) corpus.

Definition valid_graph (corpus : corpus_t) : Prop :=
  Dict.wf corpus ∧ links_closed corpus ∧ no_self_links corpus.

#[global] Instance wf_dec {V} (d : Dict.t V) : Decision (Dict.wf d).
Proof. unfold Dict.wf. apply _. Defined.
#[global] Instance links_closed_dec corpus : Decision (links_closed corpus).
Proof. unfold links_closed. apply _. Defined.
#[global] Instance no_self_links_dec corpus : Decision (no_self_links corpus).
Proof. unfold no_self_links. apply _. Defined.
#[global] Instance valid_graph_dec corpus : Decision (valid_graph corpus).
Proof. unfold valid_graph. apply _. Defined.

(** The probability that the transition model gives to page [q], from a
    page with outbound links [joins], in a corpus of [n] pages. *)
Definition transition_probability (n : Qc) (joins : gset string)
    (damping_factor : Qc) (q : string) : Qc :=
  let k := Qc_of_nat (size joins) in
  if decide (joins = ∅) then 1 / n
  else if decide (q ∈ joins) then damping_factor / k + (1 - damping_factor) / n
  else (1 - damping_factor) / n.

(** The pages of [corpus] that link to [i]. *)
Definition back (corpus : corpus_t) (i : string) : gset string :=
  list_to_set (filter (λ e, i ∈ e.2) corpus).*1.

(** One pass as section 4.4 of the specification words it: every new value
    is computed from the ranks of the previous pass, [old], and becomes
    visible only in the next pass. *)
Definition synchronous_step (corpus : corpus_t) (links : Dict.t (gset string))
    (damping_factor n : Qc) (old : Dict.t Qc) (st : Dict.t Qc * bool) (i : string)
  : result (Dict.t Qc * bool) :=
  let '(pr, change) := st in
  new ← new_value corpus links damping_factor n old i;
  prev ← Dict.item old i;
  let diff := Qcabs (prev - new) in
  Ok (Dict.set pr i new, if decide (threshold ≤ diff) then true else change).

Definition synchronous_pass (corpus : corpus_t) (links : Dict.t (gset string))
    (damping_factor n : Qc) (pr : Dict.t Qc) : result (Dict.t Qc * bool) :=
  foldM (synchronous_step corpus links damping_factor n pr) (pr, false)
        (Dict.keys corpus).

(** ** Reading the iteration as a linear update *)

(** [pr[j]] and [len(corpus[j])] as total functions. *)
Definition rank (pr : Dict.t Qc) (j : string) : Qc := default 0 (Dict.get pr j).

Definition outdeg (corpus : corpus_t) (j : string) : Qc :=
  Qc_of_nat (size (default ∅ (Dict.get corpus j))).

(** The share of the rank of [j] that goes to [i]. *)
Definition flow (corpus : corpus_t) (i j : string) : Qc :=
  if decide (j ∈ back corpus i) then / outdeg corpus j else 0.

(** The update rule of section 4.4, read off a rank function [x]. *)
Definition target (corpus : corpus_t) (damping_factor n : Qc)
    (x : string → Qc) (i : string) : Qc :=
  (1 - damping_factor) / n
  + damping_factor * Qcsum ((λ j, flow corpus i j * x j) <$> Dict.keys corpus).

(** ** Measuring the progress of the iteration *)







(** ** The walk of the sampler *)

(** The pages the walk of [sample_pagerank] stands on during its [n] steps,
    when step number [i] starts on [state]. *)
Fixpoint walk (g : rng) (probability : Dict.t (Dict.t Qc))
    (state : string) (i n : nat) : list string :=
  match n with
  | O => []
  | S n =>
    state ::
    match next_state g probability state i with
    | Ok state' => walk g probability state' (S i) n
    | Raise _ => []
    end
  end.

(** How often page [p] occurs in a trace. *)
Definition visits (p : string) (trace : list string) : nat :=
  length (filter (λ q, q = p) trace).

(** The distribution that [transition_model] builds for [page]. *)
Definition distribution (corpus : corpus_t) (damping_factor : Qc) (page : string)
  : Dict.t Qc :=
  (λ q, (q, transition_probability (Qc_of_nat (length corpus))
              (default ∅ (Dict.get corpus page)) damping_factor q))
    <$> Dict.keys corpus.

(** [ans] holds exactly the visit counts of [trace]. *)
Definition tallies (ans : Dict.t nat) (trace : list string) : Prop :=
  ∀ p, Dict.get ans p =
       if decide (visits p trace = 0%nat) then None else Some (visits p trace).

Definition total (ans : Dict.t nat) : nat := sum_list (Dict.values ans).

(** ** Concrete graphs and inputs *)

(** The damping factor of the reference configuration. *)
Definition damping : Qc := Q2Qc (85 # 100).

(** ["A"] links to ["B"] and ["C"], ["B"] links to ["C"], ["C"] is
    dangling. *)
Definition ex3 : corpus_t :=
  [("A", {["B"; "C"]}); ("B", {["C"]}); ("C", ∅)].

(** A single page without links. *)
Definition single : corpus_t := [("A", ∅)].

(** No page is dangling, and nothing links to ["A"]. *)
Definition chain : corpus_t :=
  [("A", {["B"]}); ("B", {["C"]}); ("C", {["B"]})].

(** [ex3] as [iterate_pagerank] works on it, and the ranks it starts from. *)
Definition working3 : corpus_t := fill_dangling ex3.
Definition links3 : Dict.t (gset string) := reverse_links working3.
Definition ranks3 : Dict.t Qc :=
  [("A", Q2Qc (1 # 3)); ("B", Q2Qc (1 # 3)); ("C", Q2Qc (1 # 3))].

(** The ranks of [ex3] after the first pass of the code. *)
Definition ranks3' : Dict.t Qc :=
  [("A", Q2Qc (13 # 90)); ("B", Q2Qc (247 # 1200)); ("C", Q2Qc (9139 # 24000))].



(** The literal [0.85]: the double nearest to it. *)
Definition damping64 : float := 0x1.b333333333333p-1%float.

(** Every set visited in the order of [elements], or in the opposite
    order. *)
Definition forwards (i : string) (s : gset string) : list string := elements s.


(** A random source. *)
Definition g0 : rng :=
  {| randbits := 0; random := λ i, Q2Qc (Z.of_nat (i mod 7) # 7) |}.

(** A directory of three pages and a style sheet.  In the examples the
    contents of a file are its links separated by blanks, and
    [String.words] stands in for the link extractor. *)
Definition site : list (string * string) :=
  [("1.html", "2.html 1.html"); ("style.css", "1.html");
   ("2.html", "3.html missing.html"); ("3.html", "")].

(** Closed decidable statements are settled by evaluation. *)
Ltac by_computation := apply (bool_decide_unpack _); vm_compute; exact I.

(** * Properties *)

(** ** Dictionaries *)

Section dict_facts.
Context {V : Type}.
Implicit Types (d : Dict.t V) (k : string) (v : V).

Lemma get_set_eq d k v : Dict.get (Dict.set d k v) k = Some v.
Proof.
  induction d as [|[k' v'] d IH]; simpl.
  - by rewrite decide_True.
  - destruct (decide (k' = k)) as [->|Hne]; simpl.
    + by rewrite decide_True.
    + by rewrite decide_False.
Qed.

Lemma get_set_ne d k k' v : k ≠ k' → Dict.get (Dict.set d k v) k' = Dict.get d k'.
Proof.
  intros Hne. induction d as [|[k0 v0] d IH]; simpl.
  - by rewrite decide_False.
  - destruct (decide (k0 = k)) as [->|Hne0]; simpl.
    + by rewrite !decide_False.
    + by rewrite IH.
Qed.

Lemma get_None d k : Dict.get d k = None ↔ k ∉ Dict.keys d.
Proof.
  unfold Dict.keys. induction d as [|[k' v'] d IH]; simpl.
  - split; [intros _; apply not_elem_of_nil | done].
  - rewrite not_elem_of_cons. destruct (decide (k' = k)) as [->|Hne].
    + split; [done | by intros [? _]].
    + rewrite IH. split; [intros ?; split; auto | by intros [_ ?]].
Qed.

Lemma get_is_Some d k : is_Some (Dict.get d k) ↔ k ∈ Dict.keys d.
Proof.
  rewrite <-not_eq_None_Some, get_None.
  split; [apply dec_stable | auto].
Qed.

Lemma get_Some_elem d k v : Dict.get d k = Some v → (k, v) ∈ d.
Proof.
  induction d as [|[k' v'] d IH]; simpl; [done|].
  destruct (decide (k' = k)) as [->|Hne].
  - intros [= ->]. left.
  - intros. right. auto.
Qed.

Lemma elem_get_Some d k v : Dict.wf d → (k, v) ∈ d → Dict.get d k = Some v.
Proof.
  unfold Dict.wf, Dict.keys.
  induction d as [|[k' v'] d IH]; simpl; [by intros _ ?%elem_of_nil|].
  rewrite NoDup_cons, elem_of_cons. intros [Hk' Hd] [[= -> ->]|Hin].
  - by rewrite decide_True.
  - rewrite decide_False; [auto|].
    intros ->. apply Hk'. apply list_elem_of_fmap. by exists (k, v).
Qed.

Lemma keys_set_old d k v : k ∈ Dict.keys d → Dict.keys (Dict.set d k v) = Dict.keys d.
Proof.
  unfold Dict.keys. induction d as [|[k' v'] d IH]; simpl.
  - by intros ?%elem_of_nil.
  - destruct (decide (k' = k)) as [->|Hne]; simpl; [done|].
    rewrite elem_of_cons. intros [->|Hin]; [done|]. f_equal. by apply IH.
Qed.

Lemma set_new d k v : k ∉ Dict.keys d → Dict.set d k v = d ++ [(k, v)].
Proof.
  unfold Dict.keys. induction d as [|[k' v'] d IH]; simpl; [done|].
  rewrite not_elem_of_cons. intros [Hne Hnin].
  rewrite decide_False by done. by rewrite IH.
Qed.

(** Filling a dictionary key by key, as the [for key in corpus] loops do. *)
Lemma foldl_set_fresh (f : string → V) (ks : list string) d :
  NoDup ks → (∀ k, k ∈ ks → k ∉ Dict.keys d) →
  foldl (λ acc k, Dict.set acc k (f k)) d ks = d ++ ((λ k, (k, f k)) <$> ks).
Proof.
  revert d. induction ks as [|k ks IH]; intros d Hnd Hfresh; simpl.
  - by rewrite app_nil_r.
  - apply NoDup_cons in Hnd as [Hk Hnd].
    rewrite set_new by (apply Hfresh; left).
    rewrite IH; [by rewrite <-app_assoc | done |].
    intros k' Hk'. unfold Dict.keys. rewrite fmap_app, elem_of_app. simpl.
    intros [Hin|Hin%list_elem_of_singleton].
    + by apply (Hfresh k'); [right|].
    + by subst.
Qed.

Lemma get_fmap_keys (f : string → V) (ks : list string) k :
  Dict.get ((λ k, (k, f k)) <$> ks) k = if decide (k ∈ ks) then Some (f k) else None.
Proof.
  induction ks as [|k' ks IH]; [done|]. rewrite fmap_cons. cbn [Dict.get].
  destruct (decide (k' = k)) as [->|Hne].
  - rewrite decide_True; [done | left].
  - rewrite IH. destruct (decide (k ∈ ks)).
    + rewrite decide_True; [done | by right].
    + rewrite decide_False; [done|]. rewrite elem_of_cons. by intros [?|?].
Qed.

Lemma keys_fmap_keys (f : string → V) (ks : list string) :
  Dict.keys ((λ k, (k, f k)) <$> ks) = ks.
Proof.
  unfold Dict.keys. rewrite <-list_fmap_compose. apply list_fmap_id.
Qed.

End dict_facts.

(** ** Arithmetic *)

Lemma Qc_eq_Qeq (x y : Qc) : x = y ↔ (this x == this y)%Q.
Proof. split; [by intros ->|apply Qc_is_canon]. Qed.

(** Arithmetic on [Qc] is settled on the underlying [Q]. *)
Ltac qc_unfold :=
  repeat match goal with
  | H : @eq Qc _ _ |- _ => apply Qc_eq_Qeq in H
  | H : ¬ @eq Qc _ _ |- _ => rewrite Qc_eq_Qeq in H
  | |- @eq Qc _ _ => apply Qc_eq_Qeq
  | |- ¬ @eq Qc _ _ => rewrite Qc_eq_Qeq
  end;
  unfold Qcle, Qclt, Qcminus, Qcopp, Qcplus, Qcmult, Q2Qc in *;
  cbn [this] in *;
  rewrite ?Qred_correct in *.
Ltac qc_lra := qc_unfold; lra.
Ltac qc_nra := qc_unfold; nra.

Lemma Qc_of_nat_0 : Qc_of_nat 0 = 0.
Proof. apply Z2Qc_inj_0. Qed.

Lemma Qc_of_nat_S n : Qc_of_nat (S n) = Qc_of_nat n + 1.
Proof.
  unfold Qc_of_nat. by rewrite Nat2Z.inj_succ, <-Z.add_1_r, Z2Qc_inj_add, Z2Qc_inj_1.
Qed.

Lemma Qc_of_nat_pos n : (0 < n)%nat → 0 < Qc_of_nat n.
Proof.
  intros. unfold Qc_of_nat. rewrite <-Z2Qc_inj_0. apply (proj1 (Z2Qc_inj_lt _ _)). lia.
Qed.

Lemma Qc_of_nat_ne_0 n : n ≠ 0%nat → Qc_of_nat n ≠ 0.
Proof.
  intros Hn Heq. apply (Qclt_not_eq 0 (Qc_of_nat n)); [|done].
  apply Qc_of_nat_pos. lia.
Qed.

Lemma pydiv_Ok a b : b ≠ 0 → pydiv a b = Ok (a / b).
Proof. intros. unfold pydiv. by rewrite decide_False. Qed.

Lemma foldl_pointwise {A B} (f g : A → B → A) (a : A) (l : list B) :
  (∀ a x, f a x = g a x) → foldl f a l = foldl g a l.
Proof.
  intros Hfg. revert a. induction l as [|x l IH]; intros a; simpl; [done|].
  by rewrite Hfg, IH.
Qed.

(** ** Sets *)

Lemma truthy_true s : truthy s = true ↔ s ≠ ∅.
Proof. unfold truthy. by rewrite bool_decide_eq_true. Qed.

Lemma truthy_false s : truthy s = false ↔ s = ∅.
Proof.
  unfold truthy. rewrite bool_decide_eq_false. split; [apply dec_stable | auto].
Qed.

Lemma size_truthy s : truthy s = true → size s ≠ 0%nat.
Proof.
  rewrite truthy_true. intros Hne Hsz. by apply Hne, leibniz_equiv, size_empty_iff.
Qed.

(** A set of pages is enumerated exactly once by the pages in it. *)
Lemma length_filter_elem_of (s : gset string) (ks : list string) :
  NoDup ks → s ⊆ list_to_set ks → length (filter (.∈ s) ks) = size s.
Proof.
  intros Hnd Hsub.
  rewrite <-(size_list_to_set (C := gset string) (filter (.∈ s) ks))
    by by apply NoDup_filter.
  f_equal. apply set_eq. intros x.
  rewrite elem_of_list_to_set, list_elem_of_filter.
  split; [by intros [? _]|]. intros Hx. split; [done|].
  apply Hsub in Hx. by apply elem_of_list_to_set in Hx.
Qed.

(** ** The transition model *)

Section transition_model_facts.
Variables (corpus : corpus_t) (page : string) (joins : gset string).
Variable damping_factor : Qc.
Hypothesis corpus_wf : Dict.wf corpus.
Hypothesis page_in : Dict.get corpus page = Some joins.

Let n := Qc_of_nat (length corpus).

Lemma corpus_size_ne_0 : n ≠ 0.
Proof.
  apply Qc_of_nat_ne_0. intros Hlen. apply nil_length_inv in Hlen.
  by rewrite Hlen in page_in.
Qed.

Lemma transition_model_Ok :
  transition_model corpus page damping_factor =
  Ok ((λ q, (q, transition_probability n joins damping_factor q)) <$> Dict.keys corpus).
Proof.
  unfold transition_model, Dict.item. rewrite page_in. cbn [mbind result_bind].
  fold n. pose proof corpus_size_ne_0 as Hn.
  destruct (truthy joins) eqn:Hj; cbn [mbind result_bind].
  - rewrite (pydiv_Ok _ n) by done. cbn [mbind result_bind].
    rewrite pydiv_Ok by by apply Qc_of_nat_ne_0, size_truthy. cbn [mbind result_bind].
    apply truthy_true in Hj. f_equal.
    rewrite <-(app_nil_l (_ <$> _)).
    rewrite <-(foldl_set_fresh _ _ []) by (done || intros; apply not_elem_of_nil).
    apply foldl_pointwise. intros acc q. unfold transition_probability.
    rewrite (decide_False (P := joins = ∅)) by done.
    destruct (decide (q ∈ joins)); [f_equal; ring | done].
  - rewrite (pydiv_Ok _ n) by done. cbn [mbind result_bind].
    apply truthy_false in Hj. f_equal.
    rewrite <-(app_nil_l (_ <$> _)).
    rewrite <-(foldl_set_fresh _ _ []) by (done || intros; apply not_elem_of_nil).
    apply foldl_pointwise. intros acc q. unfold transition_probability.
    rewrite (decide_True (P := joins = ∅)) by done.
    rewrite decide_False; [done|]. subst joins. apply not_elem_of_empty.
Qed.

End transition_model_facts.

Lemma values_fmap_keys {V} (f : string → V) (ks : list string) :
  Dict.values ((λ k, (k, f k)) <$> ks) = f <$> ks.
Proof. unfold Dict.values. by rewrite <-list_fmap_compose. Qed.

Lemma links_closed_get corpus page joins :
  links_closed corpus → Dict.get corpus page = Some joins →
  joins ⊆ all_pages corpus.
Proof.
  intros Hclosed Hget%get_Some_elem.
  unfold links_closed in Hclosed. rewrite Forall_forall in Hclosed.
  apply (Hclosed _ Hget).
Qed.

Lemma Qcsum_two_valued (s : gset string) (a b : Qc) (ks : list string) :
  Qcsum ((λ q, if decide (q ∈ s) then a + b else b) <$> ks) =
  Qc_of_nat (length ks) * b + Qc_of_nat (length (filter (.∈ s) ks)) * a.
Proof.
  induction ks as [|q ks IH]; [cbn; rewrite Qc_of_nat_0; ring|].
  rewrite fmap_cons, filter_cons. cbn [Qcsum length]. rewrite IH.
  destruct (decide (q ∈ s)); cbn [length]; rewrite !Qc_of_nat_S; ring.
Qed.

Lemma Qcsum_constant (c : Qc) {A} (l : list A) :
  Qcsum ((λ _, c) <$> l) = Qc_of_nat (length l) * c.
Proof.
  induction l as [|x l IH]; [cbn; rewrite Qc_of_nat_0; ring|].
  rewrite fmap_cons. cbn [Qcsum length]. rewrite IH, Qc_of_nat_S. ring.
Qed.

(** C4. For a page of the corpus with [k > 0] outbound links,
    [transition_model] gives [damping/k + (1-damping)/n] to every linked
    page and [(1-damping)/n] to every other page; for a page without
    outbound links it gives [1/n] to every page, whatever the damping
    factor is. *)
Theorem transition_model_probabilities
    (corpus : corpus_t) (page : string) (joins : gset string) (damping_factor : Qc) :
  Dict.wf corpus →
  Dict.get corpus page = Some joins →
  let n := Qc_of_nat (length corpus) in
  let k := Qc_of_nat (size joins) in
  ∃ dist,
    transition_model corpus page damping_factor = Ok dist ∧
    Dict.keys dist = Dict.keys corpus ∧
    ∀ q, q ∈ Dict.keys corpus →
      ((0 < size joins)%nat → q ∈ joins →
         Dict.get dist q = Some (damping_factor / k + (1 - damping_factor) / n)) ∧
      ((0 < size joins)%nat → q ∉ joins →
         Dict.get dist q = Some ((1 - damping_factor) / n)) ∧
      (size joins = 0%nat → Dict.get dist q = Some (1 / n)).
Proof.
  intros Hwf Hget n k. eexists. split; [by apply transition_model_Ok|].
  split; [apply keys_fmap_keys|].
  intros q Hq. rewrite get_fmap_keys, decide_True by done.
  unfold transition_probability. fold n k.
  repeat split.
  - intros Hpos Hin. rewrite decide_False, decide_True; [done..|].
    intros ->. rewrite size_empty in Hpos. lia.
  - intros Hpos Hin. rewrite decide_False, decide_False; [done..|].
    intros ->. rewrite size_empty in Hpos. lia.
  - intros Hz. rewrite decide_True; [done|].
    by apply leibniz_equiv, size_empty_iff.
Qed.

Lemma transition_model_probabilities_witness :
  ∃ dist,
    transition_model ex3 "A" damping = Ok dist ∧
    Dict.keys dist = ["A"; "B"; "C"] ∧
    Dict.get dist "B" = Some (damping / Qc_of_nat 2 + (1 - damping) / Qc_of_nat 3).
Proof.
  destruct (transition_model_probabilities ex3 "A" {["B"; "C"]} damping)
    as (dist & Hrun & Hkeys & Hval).
  - by_computation.
  - by_computation.
  - exists dist. split; [done|]. split; [done|].
    destruct (Hval "B") as (Hlinked & _ & _).
    + by_computation.
    + apply Hlinked; by_computation.
Defined.

Lemma transition_model_distribution
    (corpus : corpus_t) (page : string) (damping_factor : Qc) :
  Dict.wf corpus → page ∈ Dict.keys corpus →
  transition_model corpus page damping_factor = Ok (distribution corpus damping_factor page).
Proof.
  intros Hwf [joins Hget]%get_is_Some.
  rewrite (transition_model_Ok corpus page joins) by done.
  unfold distribution. by rewrite Hget.
Qed.

Lemma distribution_total (corpus : corpus_t) (page : string) (damping_factor : Qc) :
  Dict.wf corpus → links_closed corpus → page ∈ Dict.keys corpus →
  Qcsum (Dict.values (distribution corpus damping_factor page)) = 1.
Proof.
  intros Hwf Hclosed [joins Hget]%get_is_Some.
  unfold distribution. rewrite values_fmap_keys, Hget. cbn [default from_option id].
  pose proof (corpus_size_ne_0 _ _ _ Hget) as Hn.
  assert (length (Dict.keys corpus) = length corpus) as Hlen
    by apply length_fmap.
  unfold transition_probability. destruct (decide (joins = ∅)) as [->|Hne].
  - rewrite Qcsum_constant, Hlen. by field.
  - cbv zeta. rewrite Qcsum_two_valued, Hlen, length_filter_elem_of;
      [|done|by eapply links_closed_get].
    field. split; [|done]. by apply Qc_of_nat_ne_0, size_truthy, truthy_true.
Qed.

(** C5. For a page of a corpus whose links stay inside the corpus, the
    values of the distribution returned by [transition_model] add up to
    exactly 1, whether the page has outbound links or not. *)
Theorem transition_model_sums_to_one
    (corpus : corpus_t) (page : string) (damping_factor : Qc) :
  Dict.wf corpus →
  links_closed corpus →
  page ∈ Dict.keys corpus →
  ∃ dist,
    transition_model corpus page damping_factor = Ok dist ∧
    Qcsum (Dict.values dist) = 1.
Proof.
  intros Hwf Hclosed Hpage. exists (distribution corpus damping_factor page).
  split; [by apply transition_model_distribution | by apply distribution_total].
Qed.

Lemma transition_model_sums_to_one_witness :
  ∃ dist,
    transition_model ex3 "C" damping = Ok dist ∧ Qcsum (Dict.values dist) = 1.
Proof.
  apply (transition_model_sums_to_one ex3 "C" damping).
  - by_computation.
  - by_computation.
  - by_computation.
Defined.

(** ** The empty corpus *)

(** C3 (as the code behaves). On the empty corpus no function reports an
    empty corpus: [transition_model] raises [KeyError] when it looks the
    page up, [sample_pagerank] raises [IndexError] when it draws the first
    page from an empty list, and [iterate_pagerank] returns the empty
    dictionary without raising anything. *)
Theorem empty_corpus_behaviour (page : string) (damping_factor : Qc)
    (g : rng) (n fuel : nat) :
  transition_model [] page damping_factor = Raise KeyError ∧
  sample_pagerank g [] damping_factor n = Raise IndexError ∧
  iterate_pagerank (S fuel) [] damping_factor = ([], Some (Ok [])).
Proof. split; [reflexivity|]. split; [reflexivity|]. by destruct fuel. Qed.

(** C3 fails as stated: [iterate_pagerank] on the empty corpus returns
    normally. *)
Lemma iterate_pagerank_empty_returns :
  (iterate_pagerank 1 [] damping).2 = Some (Ok []) ∧
  ¬ ∃ e, (iterate_pagerank 1 [] damping).2 = Some (Raise e).
Proof. split; [done|]. by intros [e ?]. Qed.

(** ** The caller's dictionary *)

Lemma set_middle {V} (pre post : Dict.t V) k v v' :
  k ∉ Dict.keys pre →
  Dict.set (pre ++ (k, v) :: post) k v' = pre ++ (k, v') :: post.
Proof.
  unfold Dict.keys. induction pre as [|[k0 v0] pre IH]; simpl.
  - intros _. by rewrite decide_True.
  - rewrite not_elem_of_cons. intros [Hne Hnin].
    rewrite decide_False by done. f_equal. by apply IH.
Qed.

Lemma keys_filled pages (l : corpus_t) : Dict.keys (filled pages <$> l) = Dict.keys l.
Proof.
  unfold Dict.keys. rewrite <-list_fmap_compose. by apply list_fmap_ext.
Qed.

Lemma fill_dangling_from (pre l : corpus_t) :
  Dict.wf (pre ++ l) →
  foldl (λ c '(key, joins),
           if truthy joins then c
           else Dict.set c key (list_to_set (Dict.keys c)))
        (pre ++ l) l
  = pre ++ (filled (all_pages (pre ++ l)) <$> l).
Proof.
  revert pre. induction l as [|[key joins] l IH]; intros pre Hwf; [done|].
  assert (key ∉ Dict.keys pre) as Hfresh.
  { unfold Dict.wf, Dict.keys in *. rewrite fmap_app in Hwf.
    apply NoDup_app in Hwf as (_ & Hdisj & _). intros Hin.
    apply (Hdisj _ Hin). left. }
  rewrite fmap_cons. cbn [foldl]. unfold filled at 1. cbn [fst snd].
  destruct (truthy joins) eqn:Hj.
  - rewrite (cons_middle (key, joins) pre l), app_assoc in Hwf |- *.
    rewrite IH by done. by rewrite <-app_assoc.
  - rewrite set_middle by done. fold (all_pages (pre ++ (key, joins) :: l)).
    set (pages := all_pages (pre ++ (key, joins) :: l)).
    assert (all_pages ((pre ++ [(key, pages)]) ++ l) = pages) as Hpages.
    { unfold pages, all_pages, Dict.keys. by rewrite <-app_assoc, !fmap_app. }
    rewrite (cons_middle (key, pages) pre l), app_assoc.
    rewrite IH, Hpages; [by rewrite <-app_assoc|].
    unfold Dict.wf, Dict.keys in *. rewrite <-app_assoc, !fmap_app.
    by rewrite fmap_app in Hwf.
Qed.

Lemma fill_dangling_eq (corpus : corpus_t) :
  Dict.wf corpus → fill_dangling corpus = filled (all_pages corpus) <$> corpus.
Proof. intros Hwf. apply (fill_dangling_from [] corpus Hwf). Qed.

(** C2 (as the code behaves). [iterate_pagerank] works on the dictionary
    it is given: afterwards the caller's dictionary has the same keys in the
    same order, every page that had outbound links keeps them, and every
    page that had none now maps to the set of all pages.  The dictionary is
    left as it was exactly when no page is dangling. *)
Theorem iterate_pagerank_overwrites_dangling
    (fuel : nat) (corpus : corpus_t) (damping_factor : Qc) :
  Dict.wf corpus →
  let after := (iterate_pagerank fuel corpus damping_factor).1 in
  after = (λ e, (e.1, if decide (e.2 = ∅) then all_pages corpus else e.2)) <$> corpus ∧
  (after = corpus ↔ Forall (λ e, e.2 ≠ ∅) corpus).
Proof.
  intros Hwf after.
  assert (after = (λ e, (e.1, if decide (e.2 = ∅) then all_pages corpus else e.2))
                    <$> corpus) as Hafter.
  { unfold after, iterate_pagerank. cbn [fst]. rewrite fill_dangling_eq by done.
    apply list_fmap_ext. intros _ [key joins] _. unfold filled, truthy. cbn [fst snd].
    destruct (decide (joins = ∅)) as [->|Hne].
    - by rewrite bool_decide_eq_false_2 by auto.
    - by rewrite bool_decide_eq_true_2. }
  split; [done|]. rewrite Hafter. clear Hafter after.
  assert (corpus ≠ [] → all_pages corpus ≠ ∅) as Hpages.
  { destruct corpus as [|[k v] l]; [done|]. intros _.
    unfold all_pages. simpl. set_solver. }
  revert Hpages. generalize (all_pages corpus). intros pages Hpages.
  induction corpus as [|[key joins] l IH].
  - split; [constructor | done].
  - rewrite fmap_cons, Forall_cons. cbn [fst snd].
    assert (pages ≠ ∅) as Hne by by apply Hpages.
    (* the tail is handled independently of the head *)
    assert (Dict.wf l) as Hwfl.
    { unfold Dict.wf, Dict.keys in *. rewrite fmap_cons in Hwf.
      by apply NoDup_cons in Hwf as [_ ?]. }
    split.
    + intros [= Hhead Htail]. split.
      * destruct (decide (joins = ∅)); [by subst | done].
      * destruct l as [|e l']; [constructor|].
        apply IH; [done | done | done].
    + intros [Hjoins Hrest]. rewrite decide_False by done. f_equal.
      destruct l as [|e l']; [done|]. by apply IH.
Qed.

Lemma iterate_pagerank_overwrites_dangling_witness :
  (iterate_pagerank 2 ex3 damping).1 =
    [("A", {["B"; "C"]}); ("B", {["C"]}); ("C", {["A"; "B"; "C"]})].
Proof.
  destruct (iterate_pagerank_overwrites_dangling 2 ex3 damping) as [-> _].
  - by_computation.
  - by_computation.
Defined.

(** C2 fails as stated: after a run that returns, the caller's one-page
    corpus has been rewritten. *)
Lemma iterate_pagerank_mutates_argument :
  iterate_pagerank 1 single damping = ([("A", {["A"]})], Some (Ok [("A", 1)])) ∧
  (iterate_pagerank 1 single damping).1 ≠ single.
Proof. split; by_computation. Qed.

(** ** The reverse index *)

Lemma add_reverse_get key links i i' :
  Dict.get (add_reverse key links i) i' =
  if decide (i = i') then Some ({[key]} ∪ default ∅ (Dict.get links i))
  else Dict.get links i'.
Proof.
  unfold add_reverse. destruct (decide (i = i')) as [<-|Hne].
  - destruct (Dict.get links i) as [val|] eqn:Hget; cbn [default].
    + destruct (truthy val) eqn:Hval; rewrite get_set_eq; [done|].
      apply truthy_false in Hval as ->. f_equal. set_solver.
    + rewrite get_set_eq. f_equal. set_solver.
  - destruct (Dict.get links i) as [val|]; [destruct (truthy val)|];
      by rewrite get_set_ne.
Qed.

Lemma add_reverse_all_get key (l : list string) links i' :
  Dict.get (foldl (add_reverse key) links l) i' =
  if decide (i' ∈ l) then Some ({[key]} ∪ default ∅ (Dict.get links i'))
  else Dict.get links i'.
Proof.
  revert links. induction l as [|i l IH]; intros links; cbn [foldl].
  - rewrite decide_False; [done | apply not_elem_of_nil].
  - rewrite IH, add_reverse_get.
    destruct (decide (i = i')) as [<-|Hne].
    + rewrite (decide_True (P := i ∈ i :: l)) by left. cbn [default].
      destruct (decide (i ∈ l)); f_equal; set_solver.
    + destruct (decide (i' ∈ l)).
      * rewrite decide_True; [done | by right].
      * rewrite decide_False; [done|]. rewrite elem_of_cons. by intros [?|?].
Qed.

Lemma back_cons key joins (corpus : corpus_t) i :
  back ((key, joins) :: corpus) i =
  if decide (i ∈ joins) then {[key]} ∪ back corpus i else back corpus i.
Proof.
  unfold back. rewrite filter_cons. cbn [snd].
  destruct (decide (i ∈ joins)); [|done].
  by rewrite fmap_cons, list_to_set_cons.
Qed.

Lemma reverse_links_from (corpus : corpus_t) links i :
  Dict.get
    (foldl (λ links '(key, joins),
              if truthy joins then foldl (add_reverse key) links (elements joins)
              else links)
           links corpus) i =
  if decide (back corpus i = ∅) then Dict.get links i
  else Some (back corpus i ∪ default ∅ (Dict.get links i)).
Proof.
  revert links. induction corpus as [|[key joins] corpus IH]; intros links.
  - by rewrite decide_True.
  - cbn [foldl]. rewrite IH. clear IH.
    rewrite back_cons.
    assert (Dict.get (if truthy joins
                      then foldl (add_reverse key) links (elements joins)
                      else links) i =
            if decide (i ∈ joins)
            then Some ({[key]} ∪ default ∅ (Dict.get links i))
            else Dict.get links i) as ->.
    { destruct (truthy joins) eqn:Hj.
      - rewrite add_reverse_all_get.
        destruct (decide (i ∈ joins)).
        + rewrite decide_True; [done | by apply elem_of_elements].
        + rewrite decide_False; [done | by rewrite elem_of_elements].
      - apply truthy_false in Hj as ->.
        rewrite decide_False; [done | apply not_elem_of_empty]. }
    destruct (decide (i ∈ joins)) as [Hin|Hnin]; [|done]. cbn [default].
    rewrite (decide_False (P := {[key]} ∪ back corpus i = ∅)) by set_solver.
    destruct (decide (back corpus i = ∅)) as [->|Hne]; f_equal; set_solver.
Qed.

Lemma reverse_links_get (corpus : corpus_t) i :
  Dict.get (reverse_links corpus) i =
  if decide (back corpus i = ∅) then None else Some (back corpus i).
Proof.
  unfold reverse_links. rewrite reverse_links_from. cbn [Dict.get default].
  destruct (decide _); [done | f_equal; set_solver].
Qed.

Lemma elem_of_back (corpus : corpus_t) i j :
  Dict.wf corpus →
  j ∈ back corpus i ↔ ∃ joins, Dict.get corpus j = Some joins ∧ i ∈ joins.
Proof.
  intros Hwf. unfold back. rewrite elem_of_list_to_set, list_elem_of_fmap.
  split.
  - intros ([j' joins] & -> & [Hi Hin]%list_elem_of_filter).
    exists joins. split; [by apply elem_get_Some | done].
  - intros (joins & Hget%get_Some_elem & Hi).
    exists (j, joins). split; [done|]. by apply list_elem_of_filter.
Qed.

Lemma get_filled pages (corpus : corpus_t) p :
  Dict.get (filled pages <$> corpus) p =
  (λ joins, if truthy joins then joins else pages) <$> Dict.get corpus p.
Proof.
  induction corpus as [|[key joins] corpus IH]; [done|].
  rewrite fmap_cons. unfold filled at 1. cbn [Dict.get fst snd].
  by destruct (decide (key = p)).
Qed.

Lemma wf_fill_dangling (corpus : corpus_t) :
  Dict.wf corpus → Dict.wf (fill_dangling corpus).
Proof.
  intros Hwf. rewrite fill_dangling_eq by done.
  unfold Dict.wf. by rewrite keys_filled.
Qed.

Lemma keys_fill_dangling (corpus : corpus_t) :
  Dict.wf corpus → Dict.keys (fill_dangling corpus) = Dict.keys corpus.
Proof. intros Hwf. rewrite fill_dangling_eq by done. apply keys_filled. Qed.

Lemma elem_of_all_pages (corpus : corpus_t) i :
  i ∈ all_pages corpus ↔ i ∈ Dict.keys corpus.
Proof. apply elem_of_list_to_set. Qed.

(** C8 (as the code behaves). A page is missing from the reverse index
    exactly when no page of the working graph links to it.  When the corpus
    has a dangling page, that page links to every page after the
    preprocessing, so every page has a non-empty entry in the reverse index
    and the branch for pages without incoming links is never taken. *)
Theorem reverse_index_after_preprocessing (corpus : corpus_t) :
  valid_graph corpus →
  let working := fill_dangling corpus in
  let links := reverse_links working in
  (∀ i, Dict.get links i = None ↔
        ∀ j joins, Dict.get working j = Some joins → i ∉ joins) ∧
  ((∃ page, Dict.get corpus page = Some ∅) →
   ∀ i, i ∈ Dict.keys corpus → ∃ s, Dict.get links i = Some s ∧ s ≠ ∅).
Proof.
  intros (Hwf & _ & _) working links.
  assert (Dict.wf working) as Hwfw by by apply wf_fill_dangling.
  split.
  - intros i. unfold links. rewrite reverse_links_get.
    destruct (decide (back working i = ∅)) as [Hempty|Hne].
    + split; [|done]. intros _ j joins Hget Hin.
      assert (j ∈ back working i) as Hj by (apply elem_of_back; eauto).
      rewrite Hempty in Hj. by apply not_elem_of_empty in Hj.
    + split; [done|]. intros Hnone. exfalso. apply Hne.
      apply set_eq. intros j. rewrite elem_of_back by done.
      split; [|by intros ?%not_elem_of_empty].
      intros (joins & Hget & Hin). by destruct (Hnone j joins Hget).
  - intros [page Hpage] i Hi.
    assert (page ∈ back working i) as Hback.
    { apply elem_of_back; [done|]. exists (all_pages corpus). split.
      - unfold working. rewrite fill_dangling_eq, get_filled, Hpage by done.
        cbn. by rewrite (proj2 (truthy_false ∅)).
      - by apply elem_of_all_pages. }
    exists (back working i). unfold links. rewrite reverse_links_get.
    assert (back working i ≠ ∅) as Hne by set_solver.
    by rewrite decide_False.
Qed.

Lemma reverse_index_after_preprocessing_witness :
  ∃ s, Dict.get (reverse_links (fill_dangling ex3)) "A" = Some s ∧ s ≠ ∅.
Proof.
  destruct (reverse_index_after_preprocessing ex3) as [_ Htotal].
  - by_computation.
  - apply Htotal.
    + exists "C". by_computation.
    + by_computation.
Defined.

(** C8 fails as stated: [chain] satisfies the input invariants and has no
    dangling page; nothing links to ["A"], which is therefore missing from
    the reverse index and is ranked by the branch for pages without
    incoming links. *)
Lemma reverse_index_misses_unlinked_page :
  valid_graph chain ∧
  "A" ∈ Dict.keys chain ∧
  Dict.get (reverse_links (fill_dangling chain)) "A" = None.
Proof. repeat split; by_computation. Qed.

(** ** One pass of the iteration *)

Lemma foldM_app {A B} (f : A → B → result A) (a : A) (l1 l2 : list B) :
  foldM f a (l1 ++ l2) = a' ← foldM f a l1; foldM f a' l2.
Proof.
  revert a. induction l1 as [|x l1 IH]; intros a; [done|].
  cbn [foldM app]. destruct (f a x) as [a'|e]; [apply IH | done].
Qed.

Lemma bind_Ok_inv {A B} (m : result A) (f : A → result B) b :
  (a ← m; f a) = Ok b → ∃ a, m = Ok a ∧ f a = Ok b.
Proof. destruct m as [a|e]; [by exists a | done]. Qed.

Section pass_facts.
Variables (corpus links : corpus_t) (damping_factor n : Qc).

Lemma pass_step_inv pr change i pr' change' :
  pass_step corpus links damping_factor n (pr, change) i = Ok (pr', change') →
  ∃ new old,
    new_value corpus links damping_factor n pr i = Ok new ∧
    Dict.get pr i = Some old ∧
    pr' = Dict.set pr i new ∧
    change' = (if decide (threshold ≤ Qcabs (old - new)) then true else change).
Proof.
  unfold pass_step. intros (new & Hnew & Hrest)%bind_Ok_inv.
  apply bind_Ok_inv in Hrest as (old & Hold & [= <- <-]).
  exists new, old. unfold Dict.item in Hold.
  destruct (Dict.get pr i); by simplify_eq.
Qed.

(** A pass writes only the pages it visits. *)
Lemma pass_steps_frame l pr change pr' change' j :
  foldM (pass_step corpus links damping_factor n) (pr, change) l = Ok (pr', change') →
  j ∉ l → Dict.get pr' j = Dict.get pr j.
Proof.
  revert pr change. induction l as [|i l IH]; intros pr change; cbn [foldM].
  - by intros [= -> ->].
  - intros ([pr1 change1] & Hstep & Hrest)%bind_Ok_inv [Hne Hnin]%not_elem_of_cons.
    apply pass_step_inv in Hstep as (new & old & _ & _ & -> & _).
    rewrite (IH _ _ Hrest Hnin). by apply get_set_ne.
Qed.


End pass_facts.

(** C1 (as the code behaves). A pass overwrites [pr] page by page, in the
    order of the corpus.  The value stored for page [i] is computed from the
    dictionary [mid] reached after the pages before [i] were processed: in
    [mid] those pages already hold the values this pass ends with, and every
    other page, [i] included, still holds the value of the previous pass. *)
Theorem pass_updates_in_place
    (corpus links : corpus_t) (damping_factor n : Qc)
    (pr pr' : Dict.t Qc) (change : bool) (pre post : list string) (i : string) :
  Dict.wf corpus →
  Dict.keys corpus = pre ++ i :: post →
  pass corpus links damping_factor n pr = Ok (pr', change) →
  ∃ mid flag new,
    foldM (pass_step corpus links damping_factor n) (pr, false) pre = Ok (mid, flag) ∧
    new_value corpus links damping_factor n mid i = Ok new ∧
    Dict.get pr' i = Some new ∧
    (∀ j, j ∈ pre → Dict.get mid j = Dict.get pr' j) ∧
    (∀ j, j ∉ pre → Dict.get mid j = Dict.get pr j).
Proof.
  unfold Dict.wf, pass. intros Hnd Hkeys. rewrite Hkeys in Hnd |- *.
  apply NoDup_app in Hnd as (_ & Hdisj & [Hi _]%NoDup_cons).
  rewrite foldM_app. intros ([mid flag] & Hpre & Hrest)%bind_Ok_inv.
  cbn [foldM] in Hrest.
  apply bind_Ok_inv in Hrest as ([mid' flag'] & Hstep & Hpost).
  apply pass_step_inv in Hstep as (new & old & Hnew & _ & -> & _).
  exists mid, flag, new. repeat split; [done..| | |].
  - rewrite (pass_steps_frame _ _ _ _ _ _ _ _ _ _ Hpost Hi). apply get_set_eq.
  - intros j Hj. pose proof (Hdisj j Hj) as [Hne Hnin]%not_elem_of_cons.
    rewrite (pass_steps_frame _ _ _ _ _ _ _ _ _ _ Hpost Hnin).
    symmetry. by apply get_set_ne.
  - intros j Hj. apply (pass_steps_frame _ _ _ _ _ _ _ _ _ _ Hpre Hj).
Qed.

Lemma pass_updates_in_place_witness :
  ∃ mid flag new,
    foldM (pass_step working3 links3 damping (Qc_of_nat 3)) (ranks3, false) ["A"]
      = Ok (mid, flag) ∧
    new_value working3 links3 damping (Qc_of_nat 3) mid "B" = Ok new ∧
    Dict.get ranks3' "B" = Some new ∧
    (∀ j, j ∈ ["A"] → Dict.get mid j = Dict.get ranks3' j) ∧
    (∀ j, j ∉ ["A"] → Dict.get mid j = Dict.get ranks3 j).
Proof.
  apply (pass_updates_in_place working3 links3 damping (Qc_of_nat 3)
           ranks3 ranks3' true ["A"] ["C"] "B").
  - by_computation.
  - by_computation.
  - by_computation.
Defined.

(** C1 fails as stated: on [ex3] the first pass of the code and a pass that
    reads only the previous ranks store different values for ["B"], because
    the code computes it from the new rank of ["A"]. *)
Lemma pass_is_not_synchronous :
  init_ranks working3 (Qc_of_nat 3) = Ok ranks3 ∧
  pass working3 links3 damping (Qc_of_nat 3) ranks3 = Ok (ranks3', true) ∧
  synchronous_pass working3 links3 damping (Qc_of_nat 3) ranks3
    = Ok ([("A", Q2Qc (13 # 90)); ("B", Q2Qc (103 # 360)); ("C", Q2Qc (41 # 72))], true) ∧
  pass working3 links3 damping (Qc_of_nat 3) ranks3
    ≠ synchronous_pass working3 links3 damping (Qc_of_nat 3) ranks3.
Proof. repeat split; by_computation. Qed.

(** ** Sums *)

Lemma Qcsum_Permutation l1 l2 : l1 ≡ₚ l2 → Qcsum l1 = Qcsum l2.
Proof.
  induction 1 as [|x l1 l2 _ IH|x y l|l1 l2 l3 _ IH1 _ IH2]; simpl.
  - done.
  - by rewrite IH.
  - ring.
  - by rewrite IH1.
Qed.

Lemma Qcsum_filter {A} (P : A → Prop) `{∀ x, Decision (P x)} (f : A → Qc) l :
  Qcsum (f <$> filter P l) = Qcsum ((λ x, if decide (P x) then f x else 0) <$> l).
Proof.
  induction l as [|x l IH]; [done|].
  rewrite filter_cons, fmap_cons. cbn [Qcsum].
  destruct (decide (P x)); [rewrite fmap_cons; cbn [Qcsum]|]; rewrite IH; ring.
Qed.

Lemma Qcsum_fmap_ext {A} (f g : A → Qc) l :
  (∀ x, x ∈ l → f x = g x) → Qcsum (f <$> l) = Qcsum (g <$> l).
Proof.
  intros Hfg. f_equal. apply list_fmap_ext. intros i x Hx.
  apply Hfg. by eapply list_elem_of_lookup_2.
Qed.





Lemma Qcsum_fmap_zero {A} (l : list A) : Qcsum ((λ _, 0) <$> l) = 0.
Proof. rewrite Qcsum_constant. ring. Qed.


(** A sum over a set of pages is a sum over the pages of the corpus. *)
Lemma Qcsum_elements (s : gset string) (ks : list string) (f : string → Qc) :
  NoDup ks → s ⊆ list_to_set ks →
  Qcsum (f <$> elements s) = Qcsum ((λ j, if decide (j ∈ s) then f j else 0) <$> ks).
Proof.
  intros Hnd Hsub. rewrite <-(Qcsum_filter (.∈ s)).
  apply Qcsum_Permutation, fmap_Permutation, NoDup_Permutation.
  - apply NoDup_elements.
  - by apply NoDup_filter.
  - intros j. rewrite elem_of_elements, list_elem_of_filter.
    split; [|by intros [? _]]. intros Hj. split; [done|].
    apply Hsub in Hj. by apply elem_of_list_to_set in Hj.
Qed.

(** ** The iteration on a working graph *)


Section working_graph.
Variables (corpus : corpus_t) (damping_factor n : Qc).
Hypothesis corpus_wf : Dict.wf corpus.
Hypothesis n_ne_0 : n ≠ 0.

Let links := reverse_links corpus.
Let ks := Dict.keys corpus.

Lemma back_subseteq i : back corpus i ⊆ list_to_set ks.
Proof.
  intros j (joins & Hget & _)%elem_of_back; [|done].
  apply elem_of_list_to_set, get_is_Some. by exists joins.
Qed.

Lemma outdeg_back i j : j ∈ back corpus i → outdeg corpus j ≠ 0.
Proof.
  intros (joins & Hget & Hin)%elem_of_back; [|done].
  unfold outdeg. rewrite Hget. cbn [default].
  apply Qc_of_nat_ne_0, size_truthy, truthy_true. set_solver.
Qed.

Lemma add_shares_Ok pr i (l : list string) sumation :
  Dict.keys pr = ks →
  (∀ j, j ∈ l → j ∈ back corpus i) →
  foldM (add_share corpus pr) sumation l =
  Ok (sumation + Qcsum ((λ j, / outdeg corpus j * rank pr j) <$> l)).
Proof.
  intros Hkeys. revert sumation. induction l as [|j l IH]; intros sumation Hl.
  - cbn. f_equal. ring.
  - assert (j ∈ back corpus i) as Hj by (apply Hl; left).
    pose proof (outdeg_back _ _ Hj) as Hdeg.
    apply elem_of_back in Hj as (joins & Hget & Hin); [|done].
    assert (is_Some (Dict.get pr j)) as [r Hr].
    { apply get_is_Some. rewrite Hkeys. apply get_is_Some. by exists joins. }
    assert (add_share corpus pr sumation j
            = Ok (sumation + / outdeg corpus j * rank pr j)) as Hshare.
    { unfold outdeg in Hdeg |- *. unfold add_share, Dict.item, rank.
      rewrite Hget in Hdeg. rewrite Hr, Hget.
      cbn [mbind result_bind default from_option id] in Hdeg |- *.
      rewrite pydiv_Ok by done.
      cbn [mbind result_bind]. apply (f_equal Ok). unfold Qcdiv. ring. }
    cbn [foldM]. rewrite Hshare. cbn [mbind result_bind].
    rewrite IH by (intros; apply Hl; by right).
    rewrite fmap_cons. cbn [Qcsum]. apply (f_equal Ok). ring.
Qed.

(** Lines 144-149 and 156 compute the update rule of section 4.4. *)
Lemma new_value_Ok pr i :
  Dict.keys pr = ks →
  new_value corpus links damping_factor n pr i =
  Ok (target corpus damping_factor n (rank pr) i).
Proof.
  intros Hkeys. unfold new_value, links, target. rewrite reverse_links_get.
  destruct (decide (back corpus i = ∅)) as [Hempty|Hne].
  - rewrite pydiv_Ok by done. apply (f_equal Ok).
    rewrite (Qcsum_fmap_ext _ (λ _, 0)), Qcsum_fmap_zero; [ring|].
    intros j _. unfold flow. rewrite Hempty, decide_False; [ring|].
    apply not_elem_of_empty.
  - rewrite (add_shares_Ok pr i) by (done || by intros j ?%elem_of_elements).
    cbn [mbind result_bind]. rewrite pydiv_Ok by done. cbn [mbind result_bind].
    apply (f_equal Ok). rewrite (Qcsum_elements _ ks) by (done || apply back_subseteq).
    rewrite Qcplus_0_l. do 2 apply (f_equal2 _ eq_refl). apply Qcsum_fmap_ext.
    intros j _. unfold flow. destruct (decide _); ring.
Qed.

Lemma pass_step_Ok pr change i :
  Dict.keys pr = ks → i ∈ ks →
  pass_step corpus links damping_factor n (pr, change) i =
  let new := target corpus damping_factor n (rank pr) i in
  Ok (Dict.set pr i new,
      if decide (threshold ≤ Qcabs (rank pr i - new)) then true else change).
Proof.
  intros Hkeys Hi. unfold pass_step. rewrite new_value_Ok by done.
  cbn [mbind result_bind].
  assert (is_Some (Dict.get pr i)) as [r Hr].
  { apply get_is_Some. by rewrite Hkeys. }
  assert (rank pr i = r) as -> by (unfold rank; by rewrite Hr).
  unfold Dict.item. by rewrite Hr.
Qed.



End working_graph.

(** ** The initial ranks *)

Lemma init_ranks_Ok (corpus : corpus_t) (n : Qc) :
  Dict.wf corpus → n ≠ 0 →
  init_ranks corpus n = Ok ((λ i, (i, 1 / n)) <$> Dict.keys corpus).
Proof.
  intros Hwf Hn. unfold init_ranks. rewrite pydiv_Ok by done.
  cbn [mbind result_bind].
  assert (∀ l (pr : Dict.t Qc),
    foldM (λ pr i, Ok (Dict.set pr i (1 / n))) pr l
    = Ok (foldl (λ pr i, Dict.set pr i (1 / n)) pr l)) as Hfold.
  { induction l as [|i l IH]; intros pr; [done|]. cbn [foldM foldl]. apply IH. }
  rewrite Hfold, (foldl_set_fresh (λ _, 1 / n)); [done..|].
  intros. apply not_elem_of_nil.
Qed.

Lemma corpus_length_ne_0 (corpus : corpus_t) :
  corpus ≠ [] → Qc_of_nat (length corpus) ≠ 0.
Proof. intros Hne. apply Qc_of_nat_ne_0. by destruct corpus. Qed.

(** ** Absolute values *)







(** ** The flow of rank along the links *)

Section flow_facts.
Variable corpus : corpus_t.
Hypothesis corpus_wf : Dict.wf corpus.

Let ks := Dict.keys corpus.




Lemma flow_alt i j joins :
  Dict.get corpus j = Some joins →
  flow corpus i j = if decide (i ∈ joins) then / Qc_of_nat (size joins) else 0.
Proof.
  intros Hget. unfold flow, outdeg. rewrite Hget. cbn [default from_option id].
  destruct (decide (i ∈ joins)) as [Hin|Hnin].
  - rewrite decide_True; [done|]. apply elem_of_back; eauto.
  - rewrite decide_False; [done|].
    intros (joins' & Hget' & Hin)%elem_of_back; [|done]. congruence.
Qed.



End flow_facts.

(** ** Weighted distances across an update *)

Section pull_facts.
Variables (corpus : corpus_t) (a : Qc).
Hypothesis corpus_wf : Dict.wf corpus.
Hypothesis a_nonneg : 0 ≤ a.

Let ks := Dict.keys corpus.






End pull_facts.

(** ** Progress of the iteration *)





Section convergence.
Variables (corpus : corpus_t) (damping_factor n : Qc).
Hypothesis corpus_wf : Dict.wf corpus.
Hypothesis n_ne_0 : n ≠ 0.
Hypothesis damping_small : Qcabs damping_factor < 1.

Let a := Qcabs damping_factor.
Let links := reverse_links corpus.
Let ks := Dict.keys corpus.
Let step := pass_step corpus links damping_factor n.





End convergence.

(** ** Termination of the loop *)




Lemma while_change_false fuel corpus links damping_factor n pr :
  while_change fuel corpus links damping_factor n pr false = Some (Ok pr).
Proof. by destruct fuel. Qed.


Section termination.
Variables (corpus : corpus_t) (damping_factor n : Qc).
Hypothesis corpus_wf : Dict.wf corpus.
Hypothesis n_ne_0 : n ≠ 0.
Hypothesis damping_small : Qcabs damping_factor < 1.

Let a := Qcabs damping_factor.
Let links := reverse_links corpus.
Let ks := Dict.keys corpus.
Let step := pass_step corpus links damping_factor n.





End termination.

(** ** Unfolding equations *)

Lemma foldM_cons {A B} (f : A → B → result A) (a : A) (x : B) (l : list B) :
  foldM f a (x :: l) = a' ← f a x; foldM f a' l.
Proof. done. Qed.

Lemma bind_Ok {A B} (a : A) (f : A → result B) : (x ← Ok a; f x) = f a.
Proof. done. Qed.

Lemma while_change_S fuel corpus links damping_factor n pr :
  while_change (S fuel) corpus links damping_factor n pr true =
  match pass corpus links damping_factor n pr with
  | Ok (pr, change) => while_change fuel corpus links damping_factor n pr change
  | Raise e => Some (Raise e)
  end.
Proof. done. Qed.

(** ** Termination in exact arithmetic *)



(** ** The iteration in binary64 *)

Lemma pydiv64_Ok x n : n ≠ 0%nat → Binary64.pydiv x n = Ok (x / Binary64.of_nat n)%float.
Proof. intros Hn. unfold Binary64.pydiv. by rewrite decide_False. Qed.

Lemma init_ranks64_Ok (corpus : corpus_t) (n : nat) :
  Dict.wf corpus → n ≠ 0%nat →
  Binary64.init_ranks corpus n
  = Ok ((λ i, (i, (1 / Binary64.of_nat n)%float)) <$> Dict.keys corpus).
Proof.
  intros Hwf Hn. unfold Binary64.init_ranks. rewrite pydiv64_Ok by done.
  cbn [mbind result_bind].
  assert (∀ l (pr : Dict.t float),
    foldM (λ pr i, Ok (Dict.set pr i (1 / Binary64.of_nat n)%float)) pr l
    = Ok (foldl (λ pr i, Dict.set pr i (1 / Binary64.of_nat n)%float) pr l)) as Hfold.
  { induction l as [|i l IH]; intros pr; [done|]. cbn [foldM foldl]. apply IH. }
  rewrite Hfold, (foldl_set_fresh (λ _, (1 / Binary64.of_nat n)%float)); [done..|].
  intros. apply not_elem_of_nil.
Qed.

Lemma while_change64_S enum fuel corpus links damping_factor n pr :
  Binary64.while_change enum (S fuel) corpus links damping_factor n pr true =
  match Binary64.pass enum corpus links damping_factor n pr with
  | Ok (pr, change) =>
      Binary64.while_change enum fuel corpus links damping_factor n pr change
  | Raise e => Some (Raise e)
  end.
Proof. done. Qed.

Lemma while_change64_false enum fuel corpus links damping_factor n pr :
  Binary64.while_change enum fuel corpus links damping_factor n pr false
  = Some (Ok pr).
Proof. by destruct fuel. Qed.

Lemma while_change64_more_fuel enum fuel k corpus links damping_factor n pr change r :
  Binary64.while_change enum fuel corpus links damping_factor n pr change = Some r →
  Binary64.while_change enum (fuel + k) corpus links damping_factor n pr change
  = Some r.
Proof.
  revert pr change. induction fuel as [|fuel IH]; intros pr change.
  - destruct change; [done|]. cbn [Binary64.while_change]. intros <-.
    apply while_change64_false.
  - destruct change; [|intros <-; apply while_change64_false].
    cbn [Nat.add]. rewrite !while_change64_S.
    destruct (Binary64.pass enum corpus links damping_factor n pr)
      as [[pr' change']|e]; [|done].
    apply IH.
Qed.

Section binary64_pass.
Variables (enum : string → gset string → list string).
Variables (corpus : corpus_t) (damping_factor : float) (n : nat).
Hypothesis enum_ok : enumerates enum.
Hypothesis corpus_wf : Dict.wf corpus.
Hypothesis n_ne_0 : n ≠ 0%nat.

Let links := reverse_links corpus.
Let ks := Dict.keys corpus.
Let step := Binary64.pass_step enum corpus links damping_factor n.

Lemma add_shares64_Ok (pr : Dict.t float) i (l : list string) sumation :
  Dict.keys pr = ks →
  (∀ j, j ∈ l → j ∈ back corpus i) →
  ∃ total, foldM (Binary64.add_share corpus pr) sumation l = Ok total.
Proof.
  intros Hkeys. revert sumation. induction l as [|j l IH]; intros sumation Hl.
  - by eexists.
  - assert (j ∈ back corpus i) as Hj by (apply Hl; left).
    apply elem_of_back in Hj as (joins & Hget & Hin); [|done].
    assert (is_Some (Dict.get pr j)) as [r Hr].
    { apply get_is_Some. rewrite Hkeys. apply get_is_Some. by exists joins. }
    assert (size joins ≠ 0%nat) as Hsize.
    { apply size_truthy, truthy_true. set_solver. }
    assert (Binary64.add_share corpus pr sumation j
            = Ok (sumation + r / Binary64.of_nat (size joins))%float) as Hshare.
    { unfold Binary64.add_share, Dict.item. rewrite Hr, Hget.
      cbn [mbind result_bind]. by rewrite pydiv64_Ok. }
    rewrite foldM_cons, Hshare, bind_Ok.
    apply IH. intros k Hk. apply Hl. by right.
Qed.

(** Lines 144-149 and 156 raise nothing. *)
Lemma new_value64_Ok (pr : Dict.t float) i :
  Dict.keys pr = ks →
  ∃ new, Binary64.new_value enum corpus links damping_factor n pr i = Ok new.
Proof.
  intros Hkeys. unfold Binary64.new_value, links. rewrite reverse_links_get.
  destruct (decide (back corpus i = ∅)) as [Hempty|Hne].
  - rewrite pydiv64_Ok by done. by eexists.
  - destruct (add_shares64_Ok pr i (enum i (back corpus i)) 0%float Hkeys)
      as [total ->].
    { intros j Hj. rewrite (enum_ok i (back corpus i)) in Hj.
      by apply elem_of_elements. }
    cbn [mbind result_bind]. rewrite pydiv64_Ok by done. by eexists.
Qed.

Lemma pass_step64_Ok (pr : Dict.t float) change i :
  Dict.keys pr = ks → i ∈ ks →
  ∃ old new,
    Dict.get pr i = Some old ∧
    step (pr, change) i =
    Ok (Dict.set pr i new,
        if (Binary64.threshold <=? PrimFloat.abs (old - new))%float
        then true else change).
Proof.
  intros Hkeys Hi. unfold step, Binary64.pass_step.
  destruct (new_value64_Ok pr i Hkeys) as [new Hnew].
  fold links in Hnew. rewrite Hnew. cbn [mbind result_bind].
  assert (is_Some (Dict.get pr i)) as [old Hold].
  { apply get_is_Some. by rewrite Hkeys. }
  exists old, new. split; [done|]. unfold Dict.item. by rewrite Hold.
Qed.

(** A pass raises nothing, keeps the keys, and leaves the flag down only
    when the test of lines 151 and 158 failed for every page. *)
Lemma pass_steps64 l (pr : Dict.t float) change :
  Dict.keys pr = ks → NoDup l → (∀ i, i ∈ l → i ∈ ks) →
  ∃ pr' change',
    foldM step (pr, change) l = Ok (pr', change') ∧
    Dict.keys pr' = ks ∧
    (∀ j, j ∉ l → Dict.get pr' j = Dict.get pr j) ∧
    (change' = false →
     change = false ∧
     ∀ i old new, i ∈ l → Dict.get pr i = Some old → Dict.get pr' i = Some new →
       (Binary64.threshold <=? PrimFloat.abs (old - new))%float = false).
Proof.
  revert pr change. induction l as [|i l IH]; intros pr change Hkeys Hnd Hl.
  - exists pr, change. repeat split; [done..|]. by intros i old new ?%elem_of_nil.
  - apply NoDup_cons in Hnd as [Hi Hnd].
    assert (i ∈ ks) as Hiks by (apply Hl; left).
    destruct (pass_step64_Ok pr change i Hkeys Hiks) as (old & new & Hold & Hstep).
    rewrite foldM_cons, Hstep, bind_Ok.
    destruct (IH (Dict.set pr i new)
                (if (Binary64.threshold <=? PrimFloat.abs (old - new))%float
                 then true else change))
      as (pr' & change' & Hrun & Hkeys' & Hframe & Hquiet).
    { rewrite keys_set_old; [done|]. by rewrite Hkeys. }
    { done. }
    { intros j Hj. apply Hl. by right. }
    exists pr', change'. split; [done|]. split; [done|]. split.
    + intros j [Hne Hnin]%not_elem_of_cons.
      rewrite (Hframe j Hnin). by apply get_set_ne.
    + intros Hflag. destruct (Hquiet Hflag) as [Hstepflag Hrest].
      destruct (Binary64.threshold <=? PrimFloat.abs (old - new))%float eqn:Htest;
        [done|].
      split; [done|]. intros k old' new' [->|Hk]%elem_of_cons Hold' Hnew'.
      * rewrite (Hframe i Hi), get_set_eq in Hnew'. by simplify_eq.
      * apply (Hrest k old' new' Hk); [|done].
        rewrite get_set_ne; [done|]. by intros ->.
Qed.

Lemma pass64_Ok (pr : Dict.t float) :
  Dict.keys pr = ks →
  ∃ pr' change,
    Binary64.pass enum corpus links damping_factor n pr = Ok (pr', change) ∧
    Dict.keys pr' = ks ∧
    (change = false →
     ∀ i old new, Dict.get pr i = Some old → Dict.get pr' i = Some new →
       (Binary64.threshold <=? PrimFloat.abs (old - new))%float = false).
Proof.
  intros Hkeys.
  destruct (pass_steps64 ks pr false Hkeys corpus_wf (λ _ H, H))
    as (pr' & change & Hrun & Hkeys' & _ & Hquiet).
  exists pr', change. split; [done|]. split; [done|].
  intros Hflag i old new Hold Hnew.
  apply (proj2 (Hquiet Hflag) i old new); [|done..].
  rewrite <-Hkeys. apply get_is_Some. by exists old.
Qed.

(** The loop raises nothing; once it has stopped, it has returned the
    outcome of a pass that left the flag down. *)
Lemma while_change64_stops fuel (pr : Dict.t float) :
  Dict.keys pr = ks →
  is_Some (Binary64.while_change enum fuel corpus links damping_factor n pr true) →
  ∃ prev pr',
    Binary64.while_change enum fuel corpus links damping_factor n pr true
    = Some (Ok pr') ∧
    Dict.keys prev = ks ∧
    Binary64.pass enum corpus links damping_factor n prev = Ok (pr', false) ∧
    Dict.keys pr' = ks ∧
    ∀ i old new, Dict.get prev i = Some old → Dict.get pr' i = Some new →
      (Binary64.threshold <=? PrimFloat.abs (old - new))%float = false.
Proof.
  revert pr. induction fuel as [|fuel IH]; intros pr Hkeys.
  - by intros [? ?].
  - rewrite while_change64_S.
    destruct (pass64_Ok pr Hkeys) as (y & c & Hpass & Hy & Hquiet).
    rewrite Hpass. destruct c.
    + by apply IH.
    + intros _. rewrite while_change64_false. exists pr, y.
      repeat split; [done..|]. by apply Hquiet.
Qed.

End binary64_pass.

Lemma iterate_pagerank64_loop enum (fuel : nat) (corpus : corpus_t)
    (damping_factor : float) :
  Dict.wf corpus → corpus ≠ [] →
  (Binary64.iterate_pagerank enum fuel corpus damping_factor).2
  = Binary64.while_change enum fuel (fill_dangling corpus)
      (reverse_links (fill_dangling corpus)) damping_factor (length corpus)
      ((λ i, (i, (1 / Binary64.of_nat (length corpus))%float))
         <$> Dict.keys (fill_dangling corpus))
      true.
Proof.
  intros Hwf Hne. unfold Binary64.iterate_pagerank. cbn [snd].
  rewrite init_ranks64_Ok; [done | by apply wf_fill_dangling |].
  by destruct corpus.
Qed.

Lemma iterate_pagerank64_stops enum (fuel : nat) (corpus : corpus_t)
    (damping_factor : float) :
  Dict.wf corpus → corpus ≠ [] → enumerates enum →
  is_Some (Binary64.iterate_pagerank enum fuel corpus damping_factor).2 →
  ∃ prev pr,
    (∀ fuel', (fuel ≤ fuel')%nat →
       (Binary64.iterate_pagerank enum fuel' corpus damping_factor).2
       = Some (Ok pr)) ∧
    Dict.keys pr = Dict.keys corpus ∧
    Binary64.pass enum (fill_dangling corpus)
      (reverse_links (fill_dangling corpus)) damping_factor (length corpus) prev
    = Ok (pr, false) ∧
    ∀ p old new, Dict.get prev p = Some old → Dict.get pr p = Some new →
      (Binary64.threshold <=? PrimFloat.abs (old - new))%float = false.
Proof.
  intros Hwf Hne Henum. rewrite iterate_pagerank64_loop by done. intros Hstop.
  assert (length corpus ≠ 0%nat) as Hn by by destruct corpus.
  destruct (while_change64_stops enum _ damping_factor _ Henum
              (wf_fill_dangling _ Hwf) Hn fuel _ (keys_fmap_keys _ _) Hstop)
    as (prev & pr & Hloop & _ & Hpass & Hkeys & Hquiet).
  exists prev, pr. split; [|split; [|split]]; [| |done..].
  - intros fuel' Hfuel. rewrite iterate_pagerank64_loop by done.
    replace fuel' with (fuel + (fuel' - fuel))%nat by lia.
    by apply while_change64_more_fuel.
  - by rewrite Hkeys, keys_fill_dangling.
Qed.


Lemma enumerates_forwards : enumerates forwards.
Proof. by intros i s. Qed.



(** ** Rounding and the end of the loop *)







(** ** The random draws *)

Lemma choice_Ok (g : rng) (seq : list string) :
  seq ≠ [] → ∃ x, choice g seq = Ok x ∧ x ∈ seq.
Proof.
  intros Hne. unfold choice.
  assert (randbits g mod length seq < length seq)%nat as Hlt.
  { apply Nat.mod_upper_bound. by destruct seq. }
  apply lookup_lt_is_Some_2 in Hlt as [x Hx]. rewrite Hx.
  exists x. split; [done|]. by eapply list_elem_of_lookup_2.
Qed.

Lemma length_accumulate acc weights : length (accumulate acc weights) = length weights.
Proof.
  revert acc. induction weights as [|w weights IH]; intros acc; [done|].
  cbn. by rewrite IH.
Qed.

Lemma last_accumulate acc weights :
  weights ≠ [] → last (accumulate acc weights) = Some (acc + Qcsum weights).
Proof.
  revert acc. induction weights as [|w weights IH]; intros acc Hne; [done|].
  cbn [accumulate Qcsum]. destruct weights as [|w' weights].
  - cbn. f_equal. ring.
  - rewrite last_cons. cbn [accumulate] in IH |- *.
    rewrite (IH (acc + w)) by done. cbn [Qcsum]. cbn. f_equal. ring.
Qed.

Lemma bisect_bounds fuel a x lo hi :
  (lo ≤ hi)%nat → (lo ≤ bisect fuel a x lo hi ≤ hi)%nat.
Proof.
  revert lo hi. induction fuel as [|fuel IH]; intros lo hi Hle; cbn [bisect]; [lia|].
  destruct (decide (lo < hi)%nat) as [Hlt|]; [|lia].
  assert (lo ≤ (lo + hi) / 2 < hi)%nat as [Hmid1 Hmid2].
  { split; [apply Nat.div_le_lower_bound | apply Nat.div_lt_upper_bound]; lia. }
  destruct (decide (x < _)).
  - specialize (IH lo ((lo + hi) / 2)%nat Hmid1). lia.
  - specialize (IH ((lo + hi) / 2 + 1)%nat hi). lia.
Qed.

Lemma choices_Ok u (population : list string) (weights : list Qc) :
  population ≠ [] → length weights = length population → 0 < Qcsum weights →
  ∃ x, choices u population weights = Ok x ∧ x ∈ population.
Proof.
  intros Hne Hlen Htotal. unfold choices.
  rewrite decide_True by (by rewrite length_accumulate).
  rewrite last_accumulate by (intros ->; by destruct population).
  rewrite Qcplus_0_l, decide_False by by apply Qclt_not_le.
  set (k := bisect _ _ _ _ _).
  assert (k < length population)%nat as Hk.
  { pose proof (bisect_bounds (length population - 1) (accumulate 0 weights)
                  (u * Qcsum weights) 0 (length population - 1)) as Hb.
    fold k in Hb. destruct population; [done|]. cbn [length] in *. lia. }
  apply lookup_lt_is_Some_2 in Hk as [x Hx]. rewrite Hx.
  exists x. split; [done|]. by eapply list_elem_of_lookup_2.
Qed.

(** ** Counting visits *)

Lemma wf_set {V} (d : Dict.t V) k v : Dict.wf d → Dict.wf (Dict.set d k v).
Proof.
  unfold Dict.wf. intros Hwf. destruct (decide (k ∈ Dict.keys d)) as [Hin|Hnin].
  - by rewrite keys_set_old.
  - rewrite set_new by done. unfold Dict.keys in *. rewrite fmap_app.
    apply NoDup_app. split; [done|]. split; [|apply NoDup_singleton].
    intros x Hx ->%list_elem_of_singleton. done.
Qed.

Lemma visits_app p t1 t2 : visits p (t1 ++ t2) = (visits p t1 + visits p t2)%nat.
Proof. unfold visits. by rewrite filter_app, length_app. Qed.

Lemma visits_singleton p s : visits p [s] = if decide (s = p) then 1%nat else 0%nat.
Proof. unfold visits. rewrite filter_cons. by destruct (decide (s = p)). Qed.

Lemma visits_elem_of p t : visits p t ≠ 0%nat ↔ p ∈ t.
Proof.
  unfold visits. split.
  - intros Hne. destruct (filter _ t) as [|q l] eqn:Hf; [done|].
    assert (q ∈ filter (λ q, q = p) t) as [-> ?]%list_elem_of_filter; [|done].
    rewrite Hf. left.
  - intros Hin Hlen. apply nil_length_inv in Hlen.
    assert (p ∈ filter (λ q, q = p) t) as Hp by by apply list_elem_of_filter.
    rewrite Hlen in Hp. by apply elem_of_nil in Hp.
Qed.

Lemma tallies_nil : tallies [] [].
Proof. by intros p. Qed.

(** Line 99 counts one more visit. *)
Lemma tallies_step ans trace s :
  tallies ans trace →
  tallies (Dict.set ans s (default 0%nat (Dict.get ans s) + 1)%nat) (trace ++ [s]).
Proof.
  intros Hans p. rewrite visits_app, visits_singleton.
  destruct (decide (s = p)) as [->|Hne].
  - rewrite get_set_eq, Hans.
    rewrite (decide_False (P := (visits p trace + 1)%nat = 0%nat)) by lia.
    f_equal. by destruct (decide (visits p trace = 0%nat)) as [->|].
  - rewrite get_set_ne, Hans, Nat.add_0_r by done. done.
Qed.

Lemma total_set ans s :
  total (Dict.set ans s (default 0%nat (Dict.get ans s) + 1)%nat) = (total ans + 1)%nat.
Proof.
  unfold total, Dict.values. induction ans as [|[k v] ans IH]; [done|].
  cbn [Dict.set Dict.get]. destruct (decide (k = s)) as [->|Hne].
  - cbn. lia.
  - rewrite fmap_cons. cbn [fmap sum_list_with snd] in *.
    rewrite !fmap_cons. cbn. rewrite IH. lia.
Qed.

(** ** The sampler *)

Lemma foldM_set_Ok {V} (f : string → result V) (h : string → V)
    (l : list string) (acc : Dict.t V) :
  (∀ i, i ∈ l → f i = Ok (h i)) →
  foldM (λ acc i, v ← f i; Ok (Dict.set acc i v)) acc l =
  Ok (foldl (λ acc i, Dict.set acc i (h i)) acc l).
Proof.
  revert acc. induction l as [|i l IH]; intros acc Hf; [done|].
  cbn [foldM foldl]. rewrite Hf by left. cbn [mbind result_bind].
  apply IH. intros j Hj. apply Hf. by right.
Qed.

Lemma foldl_set_entries {A V} (h : string * A → V) (l : Dict.t A) (acc : Dict.t V) :
  Dict.wf l → (∀ k, k ∈ Dict.keys l → k ∉ Dict.keys acc) →
  foldl (λ acc e, Dict.set acc e.1 (h e)) acc l = acc ++ ((λ e, (e.1, h e)) <$> l).
Proof.
  unfold Dict.wf. revert acc. induction l as [|[k a] l IH]; intros acc Hnd Hfresh.
  - by rewrite app_nil_r.
  - cbn [Dict.keys fmap list_fmap fst] in Hnd, Hfresh.
    apply NoDup_cons in Hnd as [Hk Hnd]. cbn [foldl fst].
    rewrite set_new by (apply Hfresh; left).
    rewrite IH; [by rewrite <-app_assoc | done |].
    intros k' Hk'. unfold Dict.keys. rewrite fmap_app, elem_of_app.
    intros [Hin|Hin%list_elem_of_singleton].
    + by apply (Hfresh k'); [right|].
    + cbn in Hin. by subst.
Qed.

Section sampler.
Variables (g : rng) (corpus : corpus_t) (damping_factor : Qc).
Hypothesis corpus_wf : Dict.wf corpus.
Hypothesis corpus_closed : links_closed corpus.
Hypothesis corpus_nonempty : corpus ≠ [].

Let ks := Dict.keys corpus.
Let probability : Dict.t (Dict.t Qc) :=
  (λ i, (i, distribution corpus damping_factor i)) <$> ks.

Lemma memoise_Ok : memoise corpus damping_factor = Ok probability.
Proof.
  unfold memoise.
  rewrite (foldM_set_Ok _ (distribution corpus damping_factor))
    by (intros; by apply transition_model_distribution).
  rewrite foldl_set_fresh; [done..|]. intros. apply not_elem_of_nil.
Qed.

Lemma next_state_Ok state i :
  state ∈ ks →
  ∃ state', next_state g probability state i = Ok state' ∧ state' ∈ ks.
Proof.
  intros Hstate. unfold next_state, Dict.item, probability.
  rewrite get_fmap_keys, decide_True by done. cbn [mbind result_bind].
  assert (Dict.keys (distribution corpus damping_factor state) = ks) as Hkeys
    by apply keys_fmap_keys.
  rewrite Hkeys. apply choices_Ok.
  - unfold ks, Dict.keys. by destruct corpus.
  - unfold distribution. by rewrite values_fmap_keys, length_fmap.
  - by rewrite distribution_total.
Qed.

(** Lines 97-101. *)
Lemma walk_loop n i state ans trace :
  state ∈ ks → tallies ans trace → Dict.wf ans →
  ∃ state' ans',
    foldM (sample_step g probability) (state, ans) (seq i n) = Ok (state', ans') ∧
    tallies ans' (trace ++ walk g probability state i n) ∧
    Dict.wf ans' ∧
    total ans' = (total ans + n)%nat ∧
    length (walk g probability state i n) = n.
Proof.
  revert i state ans trace.
  induction n as [|n IH]; intros i state ans trace Hstate Hans Hwf.
  - exists state, ans. cbn. rewrite app_nil_r. repeat split; [done..|lia].
  - destruct (next_state_Ok state i Hstate) as (state1 & Hnext & Hstate1).
    assert (sample_step g probability (state, ans) i
            = Ok (state1, Dict.set ans state (default 0 (Dict.get ans state) + 1)%nat))
      as Hstep by (unfold sample_step; by rewrite Hnext).
    cbn [seq foldM walk]. rewrite Hstep, Hnext. cbn [mbind result_bind].
    destruct (IH (S i) state1 _ (trace ++ [state]) Hstate1
                (tallies_step _ _ state Hans) (wf_set _ state _ Hwf))
      as (state' & ans' & Hrun & Htally & Hwf' & Htotal & Hlen).
    exists state', ans'. rewrite Hrun, Htotal, total_set. cbn [length].
    rewrite <-app_assoc in Htally. repeat split; [done..|lia|lia].
Qed.

(** Lines 103-104. *)
Lemma normalise_Ok n (ans : Dict.t nat) :
  n ≠ 0%nat → Dict.wf ans →
  normalise n ans = Ok ((λ e, (e.1, Qc_of_nat e.2 / Qc_of_nat n)) <$> ans).
Proof.
  intros Hn Hwf. unfold normalise.
  assert (∀ l (out : Dict.t Qc),
    foldM (λ out '(key, count),
             v ← pydiv (Qc_of_nat count) (Qc_of_nat n); Ok (Dict.set out key v))
          out l
    = Ok (foldl (λ out e, Dict.set out e.1 (Qc_of_nat e.2 / Qc_of_nat n)) out l))
    as Hfold.
  { induction l as [|[key count] l IH]; intros out; [done|].
    cbn [foldM foldl fst snd]. rewrite pydiv_Ok by by apply Qc_of_nat_ne_0.
    cbn [mbind result_bind]. apply IH. }
  rewrite Hfold, (foldl_set_entries (λ e, Qc_of_nat e.2 / Qc_of_nat n)); [done..|].
  intros. apply not_elem_of_nil.
Qed.

(** The whole run of [sample_pagerank]. *)
Lemma sample_pagerank_run n :
  n ≠ 0%nat →
  ∃ start counts,
    choice g ks = Ok start ∧
    sample_pagerank g corpus damping_factor n
      = Ok ((λ e, (e.1, Qc_of_nat e.2 / Qc_of_nat n)) <$> counts) ∧
    tallies counts (walk g probability start 0 n) ∧
    total counts = n ∧
    length (walk g probability start 0 n) = n.
Proof.
  intros Hn.
  destruct (choice_Ok g ks) as (start & Hstart & Hin).
  { unfold ks, Dict.keys. by destruct corpus. }
  destruct (walk_loop n 0 start [] [] Hin tallies_nil (NoDup_nil_2))
    as (state' & counts & Hrun & Htally & Hwf & Htotal & Hlen).
  exists start, counts. split; [done|].
  unfold sample_pagerank. rewrite memoise_Ok. cbn [mbind result_bind].
  fold ks. rewrite Hstart. cbn [mbind result_bind]. rewrite Hrun.
  cbn [mbind result_bind snd]. rewrite normalise_Ok by done.
  by repeat split.
Qed.

End sampler.

Lemma Qc_of_nat_add a b : Qc_of_nat (a + b) = Qc_of_nat a + Qc_of_nat b.
Proof. unfold Qc_of_nat. by rewrite Nat2Z.inj_add, Z2Qc_inj_add. Qed.

Lemma Qcsum_counts (q : Qc) (counts : Dict.t nat) :
  Qcsum (Dict.values ((λ e, (e.1, Qc_of_nat e.2 / q)) <$> counts))
  = Qc_of_nat (total counts) / q.
Proof.
  unfold total, Dict.values. induction counts as [|[k c] counts IH].
  - cbn. rewrite Qc_of_nat_0. unfold Qcdiv. ring.
  - rewrite !fmap_cons. cbn [Qcsum snd fst]. rewrite IH.
    change (sum_list (c :: counts.*2)) with (c + sum_list counts.*2)%nat.
    rewrite Qc_of_nat_add. unfold Qcdiv. ring.
Qed.

Lemma get_fmap_values {A B} (h : A → B) (d : Dict.t A) p :
  Dict.get ((λ e, (e.1, h e.2)) <$> d) p = h <$> Dict.get d p.
Proof.
  induction d as [|[k v] d IH]; [done|].
  rewrite fmap_cons. cbn [Dict.get fst snd]. by destruct (decide (k = p)).
Qed.

(** C6. On a non-empty corpus whose links stay inside the corpus, and for a
    positive number of samples, [sample_pagerank] returns a dictionary whose
    values add up to exactly 1, whatever the damping factor and the random
    draws are. *)
Theorem sample_pagerank_sums_to_one
    (g : rng) (corpus : corpus_t) (damping_factor : Qc) (n : nat) :
  Dict.wf corpus →
  links_closed corpus →
  corpus ≠ [] →
  (0 < n)%nat →
  ∃ ans,
    sample_pagerank g corpus damping_factor n = Ok ans ∧
    Qcsum (Dict.values ans) = 1.
Proof.
  intros Hwf Hclosed Hne Hn.
  destruct (sample_pagerank_run g corpus damping_factor Hwf Hclosed Hne n)
    as (start & counts & _ & Hrun & _ & Htotal & _); [lia|].
  eexists. split; [exact Hrun|].
  rewrite Qcsum_counts, Htotal. field. apply Qc_of_nat_ne_0. lia.
Qed.

Lemma sample_pagerank_sums_to_one_witness :
  ∃ ans, sample_pagerank g0 ex3 damping 10 = Ok ans ∧ Qcsum (Dict.values ans) = 1.
Proof.
  apply (sample_pagerank_sums_to_one g0 ex3 damping 10).
  - by_computation.
  - by_computation.
  - done.
  - lia.
Defined.

(** C7. On a non-empty corpus whose links stay inside the corpus, and for a
    positive number of samples [n], the walk makes [n] steps, and the
    dictionary returned by [sample_pagerank] has a key for a page exactly
    when the walk stood on that page at least once; the value is then the
    number of visits divided by [n]. *)
Theorem sample_pagerank_visit_frequencies
    (g : rng) (corpus : corpus_t) (damping_factor : Qc) (n : nat) :
  Dict.wf corpus →
  links_closed corpus →
  corpus ≠ [] →
  (0 < n)%nat →
  ∃ probability start ans,
    memoise corpus damping_factor = Ok probability ∧
    choice g (Dict.keys corpus) = Ok start ∧
    sample_pagerank g corpus damping_factor n = Ok ans ∧
    let trace := walk g probability start 0 n in
    length trace = n ∧
    ∀ p, (p ∈ trace →
            Dict.get ans p = Some (Qc_of_nat (visits p trace) / Qc_of_nat n)) ∧
         (p ∉ trace → Dict.get ans p = None).
Proof.
  intros Hwf Hclosed Hne Hn.
  destruct (sample_pagerank_run g corpus damping_factor Hwf Hclosed Hne n)
    as (start & counts & Hstart & Hrun & Htally & _ & Hlen); [lia|].
  eexists _, start, _. split; [by apply memoise_Ok|].
  split; [done|]. split; [exact Hrun|]. split; [done|].
  intros p. rewrite (get_fmap_values (λ c, Qc_of_nat c / Qc_of_nat n)), Htally.
  split; intros Hp.
  - apply visits_elem_of in Hp. by rewrite decide_False.
  - rewrite decide_True; [done|]. apply dec_stable. by rewrite visits_elem_of.
Qed.

Lemma sample_pagerank_visit_frequencies_witness :
  ∃ probability start ans,
    memoise ex3 damping = Ok probability ∧
    choice g0 (Dict.keys ex3) = Ok start ∧
    sample_pagerank g0 ex3 damping 10 = Ok ans ∧
    let trace := walk g0 probability start 0 10 in
    length trace = 10%nat ∧
    ∀ p, (p ∈ trace →
            Dict.get ans p = Some (Qc_of_nat (visits p trace) / Qc_of_nat 10)) ∧
         (p ∉ trace → Dict.get ans p = None).
Proof.
  apply (sample_pagerank_visit_frequencies g0 ex3 damping 10).
  - by_computation.
  - by_computation.
  - done.
  - lia.
Defined.

(** * Further properties *)

(** ** [crawl] *)

Lemma elem_of_keys_set {V} (d : Dict.t V) k v k' :
  k' ∈ Dict.keys (Dict.set d k v) ↔ k' = k ∨ k' ∈ Dict.keys d.
Proof.
  rewrite <-!get_is_Some. destruct (decide (k = k')) as [->|Hne].
  - rewrite get_set_eq. split; [by left | by eexists].
  - rewrite get_set_ne by done. split; [by right | by intros [?|?]].
Qed.

Lemma Forall_set {V} (P : string * V → Prop) (d : Dict.t V) k v :
  Forall P d → P (k, v) → Forall P (Dict.set d k v).
Proof.
  intros Hd Hkv. induction d as [|[k' v'] d IH]; cbn [Dict.set].
  - by constructor.
  - apply Forall_cons in Hd as [Hhead Htail].
    destruct (decide (k' = k)); constructor; auto.
Qed.

Lemma get_middle {V} (pre post : Dict.t V) k v :
  k ∉ Dict.keys pre → Dict.get (pre ++ (k, v) :: post) k = Some v.
Proof.
  unfold Dict.keys. induction pre as [|[k0 v0] pre IH]; cbn [Dict.get app].
  - intros _. by rewrite decide_True.
  - rewrite fmap_cons, not_elem_of_cons. intros [Hne Hnin].
    rewrite decide_False by done. by apply IH.
Qed.

Section crawl_facts.
Variable findall : string → list string.

Lemma wf_crawl_read pages entry :
  Dict.wf pages → Dict.wf (crawl_read findall pages entry).
Proof.
  intros Hwf. destruct entry as [filename contents]. unfold crawl_read.
  destruct (endswith filename ".html"); [by apply wf_set | done].
Qed.

Lemma wf_crawl_reads directory pages :
  Dict.wf pages → Dict.wf (foldl (crawl_read findall) pages directory).
Proof.
  revert pages. induction directory as [|entry directory IH]; intros pages Hwf;
    [done|].
  cbn [foldl]. by apply IH, wf_crawl_read.
Qed.

(** Lines 33-39 keep the files whose name ends in [.html]. *)
Lemma keys_crawl_reads directory pages k :
  k ∈ Dict.keys (foldl (crawl_read findall) pages directory) ↔
  k ∈ Dict.keys pages ∨ (k ∈ directory.*1 ∧ endswith k ".html" = true).
Proof.
  revert pages. induction directory as [|[filename contents] directory IH];
    intros pages.
  - cbn. split; [by left|]. intros [?|[?%elem_of_nil _]]; done.
  - cbn [foldl]. rewrite IH, fmap_cons, elem_of_cons. cbn [fst crawl_read].
    destruct (endswith filename ".html") eqn:Hhtml.
    + rewrite elem_of_keys_set. split.
      * intros [[->|?]|[? ?]]; auto.
      * intros [?|[[->|?] ?]]; auto.
    + split.
      * intros [?|[? ?]]; auto.
      * intros [?|[[->|?] ?]]; auto. congruence.
Qed.

(** Line 39 removes the page itself from its links. *)
Lemma no_self_crawl_reads directory pages :
  no_self_links pages → no_self_links (foldl (crawl_read findall) pages directory).
Proof.
  unfold no_self_links. revert pages.
  induction directory as [|[filename contents] directory IH]; intros pages Hpages;
    [done|].
  cbn [foldl crawl_read]. apply IH.
  destruct (endswith filename ".html"); [|done].
  apply Forall_set; [done|]. cbn. set_solver.
Qed.

Lemma get_crawl_reads_frame directory pages filename :
  filename ∉ directory.*1 →
  Dict.get (foldl (crawl_read findall) pages directory) filename
  = Dict.get pages filename.
Proof.
  revert pages. induction directory as [|[name text] directory IH];
    intros pages Hnin; [done|].
  rewrite fmap_cons in Hnin. apply not_elem_of_cons in Hnin as [Hne Hnin].
  cbn [foldl crawl_read]. rewrite IH by done.
  destruct (endswith name ".html"); [|done]. by apply get_set_ne.
Qed.

(** A file that is listed once is read once. *)
Lemma get_crawl_reads directory pages filename contents :
  NoDup directory.*1 → (filename, contents) ∈ directory →
  endswith filename ".html" = true →
  Dict.get (foldl (crawl_read findall) pages directory) filename
  = Some (list_to_set (findall contents) ∖ {[filename]}).
Proof.
  revert pages. induction directory as [|[name text] directory IH];
    intros pages Hnd Hin Hhtml; [by apply elem_of_nil in Hin|].
  rewrite fmap_cons in Hnd. apply NoDup_cons in Hnd as [Hname Hnd].
  cbn [foldl]. apply elem_of_cons in Hin as [[= <- <-]|Hin]; [|by apply IH].
  cbn [crawl_read]. rewrite Hhtml, get_crawl_reads_frame by done.
  apply get_set_eq.
Qed.

(** Lines 42-46, from the entries [l] on. *)
Lemma crawl_keep_from (pre l : corpus_t) :
  Dict.wf (pre ++ l) →
  foldM crawl_keep (pre ++ l) (Dict.keys l)
  = Ok (pre ++ (kept (Dict.keys (pre ++ l)) <$> l)).
Proof.
  revert pre. induction l as [|[filename links] l IH]; intros pre Hwf.
  - cbn. by rewrite app_nil_r.
  - assert (filename ∉ Dict.keys pre) as Hfresh.
    { unfold Dict.wf, Dict.keys in *. rewrite fmap_app in Hwf.
      apply NoDup_app in Hwf as (_ & Hdisj & _). intros Hin.
      apply (Hdisj _ Hin). left. }
    set (pages := Dict.keys (pre ++ (filename, links) :: l)).
    assert (Dict.keys ((pre ++ [kept pages (filename, links)]) ++ l) = pages)
      as Hpages.
    { unfold pages, Dict.keys. by rewrite <-app_assoc, !fmap_app. }
    assert (crawl_keep (pre ++ (filename, links) :: l) filename
            = Ok ((pre ++ [kept pages (filename, links)]) ++ l)) as Hstep.
    { unfold crawl_keep, Dict.item. rewrite get_middle by done.
      cbn [mbind result_bind]. rewrite set_middle by done.
      by rewrite <-app_assoc. }
    unfold Dict.keys at 1. rewrite fmap_cons. cbn [fst foldM].
    rewrite Hstep. cbn [mbind result_bind].
    fold (Dict.keys l). rewrite IH, Hpages.
    + rewrite fmap_cons. by rewrite <-app_assoc.
    + unfold Dict.wf. rewrite Hpages. exact Hwf.
Qed.

Lemma crawl_Ok directory :
  let pages := foldl (crawl_read findall) [] directory in
  crawl findall directory = Ok (kept (Dict.keys pages) <$> pages).
Proof.
  intros pages. unfold crawl. fold pages.
  apply (crawl_keep_from [] pages). by apply wf_crawl_reads, NoDup_nil_2.
Qed.

Lemma keys_kept ks (pages : corpus_t) : Dict.keys (kept ks <$> pages) = Dict.keys pages.
Proof.
  unfold Dict.keys. rewrite <-list_fmap_compose. by apply list_fmap_ext.
Qed.

Lemma get_kept ks (pages : corpus_t) p :
  Dict.get (kept ks <$> pages) p
  = (λ links, filter (λ link, link ∈ ks) links) <$> Dict.get pages p.
Proof.
  induction pages as [|[key links] pages IH]; [done|].
  rewrite fmap_cons. unfold kept at 1. cbn [Dict.get fst snd].
  by destruct (decide (key = p)).
Qed.

End crawl_facts.

(** What the two loops of [crawl] leave is a graph of the data model. *)
Lemma crawl_reads_valid
    (findall : string → list string) (directory : list (string * string)) :
  let pages := foldl (crawl_read findall) [] directory in
  valid_graph (kept (Dict.keys pages) <$> pages).
Proof.
  intros pages.
  assert (Dict.wf pages) as Hwf by by apply wf_crawl_reads, NoDup_nil_2.
  assert (no_self_links pages) as Hself
    by by apply no_self_crawl_reads, Forall_nil_2.
  split; [|split].
  - unfold Dict.wf. by rewrite keys_kept.
  - unfold links_closed, all_pages. rewrite keys_kept.
    apply Forall_fmap, Forall_forall. intros [key links] _. cbn.
    intros link [Hlink _]%elem_of_filter. by apply elem_of_list_to_set.
  - unfold no_self_links in *. apply Forall_fmap. eapply Forall_impl; [exact Hself|].
    intros [key links] Hkey. cbn in *. by intros [_ ?]%elem_of_filter.
Qed.

(** X1. Once the directory is listed and its files are read, the two loops
    of [crawl] raise nothing, and whatever the files contain and whatever
    the link extractor returns, the dictionary they build satisfies the
    invariants of the graph: the pages are distinct, every link of a page is
    itself a page, and no page links to itself. *)
Theorem crawl_valid_graph
    (findall : string → list string) (directory : list (string * string)) :
  ∃ pages, crawl findall directory = Ok pages ∧ valid_graph pages.
Proof. eexists. split; [apply crawl_Ok | apply crawl_reads_valid]. Qed.

(** X2. The pages of the corpus that [crawl] returns are exactly the names
    of the directory that end in [.html]; every other file is ignored. *)
Theorem crawl_pages
    (findall : string → list string) (directory : list (string * string)) :
  ∃ pages,
    crawl findall directory = Ok pages ∧
    ∀ p, p ∈ Dict.keys pages ↔ p ∈ directory.*1 ∧ endswith p ".html" = true.
Proof.
  eexists. split; [apply crawl_Ok|].
  intros p. rewrite keys_kept, keys_crawl_reads.
  split; [|by right]. by intros [?%elem_of_nil|?].
Qed.

(** X3. For a file of the directory whose name ends in [.html], the links
    that [crawl] records are the extracted links that name another file of
    the directory ending in [.html]: links to the page itself, to files
    that are missing and to files of another kind are dropped. *)
Theorem crawl_links
    (findall : string → list string) (directory : list (string * string))
    (filename contents : string) :
  NoDup directory.*1 →
  (filename, contents) ∈ directory →
  endswith filename ".html" = true →
  ∃ pages links,
    crawl findall directory = Ok pages ∧
    Dict.get pages filename = Some links ∧
    ∀ link, link ∈ links ↔
      link ∈ findall contents ∧ link ≠ filename ∧
      link ∈ directory.*1 ∧ endswith link ".html" = true.
Proof.
  intros Hnd Hin Hhtml. eexists _, _. split; [apply crawl_Ok|].
  split.
  - rewrite get_kept, (get_crawl_reads _ _ _ _ contents) by done. done.
  - intros link. rewrite elem_of_filter, keys_crawl_reads.
    rewrite elem_of_difference, elem_of_list_to_set, elem_of_singleton.
    split.
    + intros [[?%elem_of_nil|[? ?]] [? ?]]; done.
    + intros (? & ? & ? & ?). auto.
Qed.

Lemma crawl_links_witness :
  ∃ pages links,
    crawl String.words site = Ok pages ∧
    Dict.get pages "2.html" = Some links ∧
    ∀ link, link ∈ links ↔
      link ∈ String.words "3.html missing.html" ∧ link ≠ "2.html" ∧
      link ∈ site.*1 ∧ endswith link ".html" = true.
Proof.
  apply (crawl_links String.words site "2.html" "3.html missing.html").
  - by_computation.
  - by_computation.
  - reflexivity.
Defined.

(** ** More on [transition_model] *)

Lemma fmap_ext_in {A B} (f g : A → B) (l : list A) :
  (∀ x, x ∈ l → f x = g x) → f <$> l = g <$> l.
Proof.
  intros Hfg. apply list_fmap_ext. intros i x Hx.
  apply Hfg. by eapply list_elem_of_lookup_2.
Qed.

Lemma Qc_of_nat_ge_1 n : n ≠ 0%nat → 1 ≤ Qc_of_nat n.
Proof.
  intros Hn. unfold Qc_of_nat. rewrite <-Z2Qc_inj_1.
  apply (proj1 (Z2Qc_inj_le _ _)). lia.
Qed.

Lemma Qcdiv_bounds x n : 0 ≤ x → 1 ≤ n → 0 ≤ x / n ∧ x / n ≤ x.
Proof.
  intros Hx Hn.
  assert (0 < n) as Hpos by (clear Hx; qc_lra).
  pose proof (Qcinv_pos _ Hpos) as Hinv.
  assert (n * / n = 1) as Hone
    by (apply Qcmult_inv_r; intros ->; by apply Qclt_not_eq in Hpos).
  unfold Qcdiv. revert Hinv Hone. generalize (/ n). intros m Hm Hone.
  split; qc_nra.
Qed.

(** The only exception of [transition_model] is the [KeyError] of line 62. *)
Lemma transition_model_outcome
    (corpus : corpus_t) (page : string) (damping_factor : Qc) :
  match Dict.get corpus page with
  | None => transition_model corpus page damping_factor = Raise KeyError
  | Some _ => ∃ dist, transition_model corpus page damping_factor = Ok dist
  end.
Proof.
  destruct (Dict.get corpus page) as [joins|] eqn:Hget.
  - pose proof (corpus_size_ne_0 _ _ _ Hget) as Hn.
    unfold transition_model, Dict.item. rewrite Hget. cbn [mbind result_bind].
    destruct (truthy joins) eqn:Hj; cbn [mbind result_bind].
    + rewrite (pydiv_Ok _ (Qc_of_nat (length corpus))) by done.
      cbn [mbind result_bind].
      rewrite pydiv_Ok by by apply Qc_of_nat_ne_0, size_truthy.
      cbn [mbind result_bind]. by eexists.
    + rewrite pydiv_Ok by done. cbn [mbind result_bind]. by eexists.
  - unfold transition_model, Dict.item. by rewrite Hget.
Qed.

(** X4. [transition_model] raises exactly when the page is not a key of the
    corpus, and what it raises then is [KeyError]; for a page of the corpus
    it returns a distribution, without any division by zero. *)
Theorem transition_model_raises_only_KeyError
    (corpus : corpus_t) (page : string) (damping_factor : Qc) :
  (page ∉ Dict.keys corpus →
     transition_model corpus page damping_factor = Raise KeyError) ∧
  (page ∈ Dict.keys corpus →
     ∃ dist, transition_model corpus page damping_factor = Ok dist).
Proof.
  pose proof (transition_model_outcome corpus page damping_factor) as Hout.
  split.
  - intros Hnin%get_None. by rewrite Hnin in Hout.
  - intros [joins Hget]%get_is_Some. by rewrite Hget in Hout.
Qed.

Lemma transition_model_raises_only_KeyError_witness :
  transition_model ex3 "D" damping = Raise KeyError ∧
  ∃ dist, transition_model ex3 "C" damping = Ok dist.
Proof.
  destruct (transition_model_raises_only_KeyError ex3 "D" damping) as [Hmiss _].
  destruct (transition_model_raises_only_KeyError ex3 "C" damping) as [_ Hhit].
  split; [apply Hmiss | apply Hhit]; by_computation.
Defined.

Lemma transition_probability_bounds n (joins : gset string) damping_factor q :
  0 ≤ damping_factor → damping_factor ≤ 1 → 1 ≤ n →
  0 ≤ transition_probability n joins damping_factor q ∧
  transition_probability n joins damping_factor q ≤ 1.
Proof.
  intros Hd0 Hd1 Hn. unfold transition_probability.
  assert (0 ≤ 1 - damping_factor) as Hrest by (clear Hn; qc_lra).
  destruct (Qcdiv_bounds _ _ Hrest Hn) as [Hr0 Hr1].
  destruct (decide (joins = ∅)) as [|Hne].
  - destruct (Qcdiv_bounds 1 n) as [H0 H1]; done.
  - destruct (decide (q ∈ joins)).
    + destruct (Qcdiv_bounds damping_factor (Qc_of_nat (size joins)) Hd0)
        as [Hl0 Hl1].
      { apply Qc_of_nat_ge_1. by apply size_truthy, truthy_true. }
      revert Hl0 Hl1 Hr0 Hr1.
      generalize (damping_factor / Qc_of_nat (size joins))
                 ((1 - damping_factor) / n).
      clear. intros a b ????. split; qc_lra.
    + revert Hr0 Hr1. generalize ((1 - damping_factor) / n).
      clear -Hd0. intros b ??. split; qc_lra.
Qed.

(** X5. For a damping factor in [0,1], every value of the distribution that
    [transition_model] returns for a page of the corpus lies in [0,1]. *)
Theorem transition_model_probabilities_in_unit_interval
    (corpus : corpus_t) (page : string) (damping_factor : Qc) :
  Dict.wf corpus →
  page ∈ Dict.keys corpus →
  0 ≤ damping_factor →
  damping_factor ≤ 1 →
  ∃ dist,
    transition_model corpus page damping_factor = Ok dist ∧
    ∀ q v, Dict.get dist q = Some v → 0 ≤ v ∧ v ≤ 1.
Proof.
  intros Hwf Hpage Hd0 Hd1. eexists.
  split; [by apply transition_model_distribution|].
  intros q v. unfold distribution. rewrite get_fmap_keys.
  destruct (decide (q ∈ Dict.keys corpus)); [|done]. intros [= <-].
  apply transition_probability_bounds; [done..|].
  apply Qc_of_nat_ge_1. destruct corpus; [|done].
  by apply elem_of_nil in Hpage.
Qed.

Lemma transition_model_probabilities_in_unit_interval_witness :
  ∃ dist,
    transition_model ex3 "A" damping = Ok dist ∧
    ∀ q v, Dict.get dist q = Some v → 0 ≤ v ∧ v ≤ 1.
Proof.
  apply (transition_model_probabilities_in_unit_interval ex3 "A" damping);
    by_computation.
Defined.

(** ** More on [sample_pagerank] *)

Lemma keys_ne_nil {V} (d : Dict.t V) : d ≠ [] → Dict.keys d ≠ [].
Proof. by destruct d. Qed.

(** X7. Asked for no sample at all, [sample_pagerank] on a non-empty corpus
    still builds the transition models and draws the first page, and then
    returns the empty dictionary; nothing is divided by the number of
    samples. *)
Theorem sample_pagerank_no_samples
    (g : rng) (corpus : corpus_t) (damping_factor : Qc) :
  Dict.wf corpus →
  corpus ≠ [] →
  sample_pagerank g corpus damping_factor 0 = Ok [].
Proof.
  intros Hwf Hne. unfold sample_pagerank.
  rewrite memoise_Ok by done. cbn [mbind result_bind].
  destruct (choice_Ok g (Dict.keys corpus)) as (start & -> & _);
    [by apply keys_ne_nil|].
  done.
Qed.

Lemma sample_pagerank_no_samples_witness :
  sample_pagerank g0 ex3 damping 0 = Ok [].
Proof.
  apply (sample_pagerank_no_samples g0 ex3 damping); by_computation.
Defined.

Section walk_facts.
Variables (g : rng) (corpus : corpus_t) (damping_factor : Qc).
Hypothesis corpus_wf : Dict.wf corpus.
Hypothesis corpus_closed : links_closed corpus.
Hypothesis corpus_nonempty : corpus ≠ [].

Let ks := Dict.keys corpus.
Let probability : Dict.t (Dict.t Qc) :=
  (λ i, (i, distribution corpus damping_factor i)) <$> ks.

(** The walk never leaves the corpus. *)
Lemma walk_in_corpus n i state p :
  state ∈ ks → p ∈ walk g probability state i n → p ∈ ks.
Proof.
  revert i state. induction n as [|n IH]; intros i state Hstate; cbn [walk].
  - by intros ?%elem_of_nil.
  - destruct (next_state_Ok g corpus damping_factor corpus_wf corpus_closed
                corpus_nonempty state i Hstate) as (state' & Hnext & Hstate').
    fold ks probability in Hnext. rewrite Hnext.
    intros [->|Hp]%elem_of_cons; [done|]. by eapply IH.
Qed.

End walk_facts.

Lemma visits_le_length p trace : (visits p trace ≤ length trace)%nat.
Proof. apply length_filter. Qed.

Lemma Qc_of_nat_le a b : (a ≤ b)%nat → Qc_of_nat a ≤ Qc_of_nat b.
Proof. intros Hab. unfold Qc_of_nat. apply (proj1 (Z2Qc_inj_le _ _)). lia. Qed.

Lemma frequency_bounds (a n : nat) :
  a ≠ 0%nat → (a ≤ n)%nat →
  0 < Qc_of_nat a / Qc_of_nat n ∧ Qc_of_nat a / Qc_of_nat n ≤ 1.
Proof.
  intros Ha Han.
  assert (0 < Qc_of_nat a) as Hapos by (apply Qc_of_nat_pos; lia).
  assert (0 < Qc_of_nat n) as Hnpos by (apply Qc_of_nat_pos; lia).
  pose proof (Qc_of_nat_le _ _ Han) as Hle.
  pose proof (Qcinv_pos _ Hnpos) as Hinv.
  assert (Qc_of_nat n * / Qc_of_nat n = 1) as Hone
    by (apply Qcmult_inv_r; intros Hz; rewrite Hz in Hnpos; done).
  unfold Qcdiv. revert Hapos Hnpos Hle Hinv Hone.
  generalize (Qc_of_nat a) (Qc_of_nat n) (/ Qc_of_nat n). clear.
  intros x y z ?????. split; qc_nra.
Qed.

(** X8. On a non-empty corpus whose links stay inside the corpus, and for a
    positive number of samples, every key of the dictionary returned by
    [sample_pagerank] is a page of the corpus, and every value is a
    frequency above 0 and at most 1: pages that the walk never visited are
    left out instead of being listed with 0. *)
Theorem sample_pagerank_keys_and_values
    (g : rng) (corpus : corpus_t) (damping_factor : Qc) (n : nat) :
  Dict.wf corpus →
  links_closed corpus →
  corpus ≠ [] →
  (0 < n)%nat →
  ∃ ans,
    sample_pagerank g corpus damping_factor n = Ok ans ∧
    ∀ p v, Dict.get ans p = Some v →
      p ∈ Dict.keys corpus ∧ 0 < v ∧ v ≤ 1.
Proof.
  intros Hwf Hclosed Hne Hn.
  destruct (sample_pagerank_run g corpus damping_factor Hwf Hclosed Hne n)
    as (start & counts & Hstart & Hrun & Htally & _ & Hlen); [lia|].
  eexists. split; [exact Hrun|]. intros p v.
  rewrite (get_fmap_values (λ c, Qc_of_nat c / Qc_of_nat n)), Htally.
  destruct (decide (visits p _ = 0%nat)) as [|Hvisits]; [done|].
  intros [= <-]. split.
  - destruct (choice_Ok g (Dict.keys corpus)) as (start' & Hstart' & Hin);
      [by apply keys_ne_nil|].
    assert (start' = start) as -> by congruence.
    eapply (walk_in_corpus g corpus damping_factor Hwf Hclosed Hne); [exact Hin|].
    by apply visits_elem_of.
  - apply frequency_bounds; [done|].
    rewrite <-Hlen at 2. apply visits_le_length.
Qed.

Lemma sample_pagerank_keys_and_values_witness :
  ∃ ans,
    sample_pagerank g0 ex3 damping 10 = Ok ans ∧
    ∀ p v, Dict.get ans p = Some v →
      p ∈ Dict.keys ex3 ∧ 0 < v ∧ v ≤ 1.
Proof.
  apply (sample_pagerank_keys_and_values g0 ex3 damping 10).
  - by_computation.
  - by_computation.
  - done.
  - lia.
Defined.

(** ** More on [iterate_pagerank] *)

Lemma set_same {V} (d : Dict.t V) k v : Dict.get d k = Some v → Dict.set d k v = d.
Proof.
  induction d as [|[k0 v0] d IH]; [done|]. cbn [Dict.get Dict.set].
  destruct (decide (k0 = k)) as [->|Hne].
  - by intros [= ->].
  - intros Hget. by rewrite IH.
Qed.

Lemma Qcabs_same x : Qcabs (x - x) < threshold.
Proof. replace (x - x) with 0 by ring. done. Qed.

(** The loop of [iterate_pagerank] as run on the working graph. *)
Lemma iterate_pagerank_loop (fuel : nat) (corpus : corpus_t) (damping_factor : Qc) :
  Dict.wf corpus → corpus ≠ [] →
  (iterate_pagerank fuel corpus damping_factor).2
  = while_change fuel (fill_dangling corpus) (reverse_links (fill_dangling corpus))
      damping_factor (Qc_of_nat (length corpus))
      ((λ i, (i, 1 / Qc_of_nat (length corpus)))
         <$> Dict.keys (fill_dangling corpus))
      true.
Proof.
  intros Hwf Hne. unfold iterate_pagerank. cbn [snd].
  rewrite init_ranks_Ok; [done | by apply wf_fill_dangling |].
  by apply corpus_length_ne_0.
Qed.

(** X11. Once the loop of [iterate_pagerank] has stopped, the dictionary
    that is returned is the outcome of a last pass over the working graph
    that left the flag [change] down: for no page was the test
    [diff >= 0.001] of lines 151 and 158 true between the ranks [prev] that
    this pass started from and the ranks that it returned. *)
Theorem iterate_pagerank_stops_after_quiet_pass
    (enum : string → gset string → list string) (fuel : nat)
    (corpus : corpus_t) (damping_factor : float) :
  Dict.wf corpus →
  corpus ≠ [] →
  enumerates enum →
  is_Some (Binary64.iterate_pagerank enum fuel corpus damping_factor).2 →
  ∃ prev pr,
    let working := (Binary64.iterate_pagerank enum fuel corpus damping_factor).1 in
    (Binary64.iterate_pagerank enum fuel corpus damping_factor).2 = Some (Ok pr) ∧
    Binary64.pass enum working (reverse_links working) damping_factor
      (length corpus) prev = Ok (pr, false) ∧
    ∀ p old new, Dict.get prev p = Some old → Dict.get pr p = Some new →
      (Binary64.threshold <=? PrimFloat.abs (old - new))%float = false.
Proof.
  intros Hwf Hne Henum Hstop.
  destruct (iterate_pagerank64_stops enum fuel corpus damping_factor
              Hwf Hne Henum Hstop) as (prev & pr & Hrun & _ & Hpass & Hquiet).
  exists prev, pr. cbn zeta. split; [by apply Hrun|]. by split.
Qed.

Lemma iterate_pagerank_stops_after_quiet_pass_witness :
  ∃ prev pr,
    let working := (Binary64.iterate_pagerank forwards 15 ex3 damping64).1 in
    (Binary64.iterate_pagerank forwards 15 ex3 damping64).2 = Some (Ok pr) ∧
    Binary64.pass forwards working (reverse_links working) damping64
      (length ex3) prev = Ok (pr, false) ∧
    ∀ p old new, Dict.get prev p = Some old → Dict.get pr p = Some new →
      (Binary64.threshold <=? PrimFloat.abs (old - new))%float = false.
Proof.
  apply (iterate_pagerank_stops_after_quiet_pass forwards 15 ex3 damping64).
  - by_computation.
  - done.
  - exact enumerates_forwards.
  - by_computation.
Defined.

Lemma filled_idemp pages (e : string * gset string) :
  filled pages (filled pages e) = filled pages e.
Proof.
  unfold filled. cbn [fst snd]. f_equal.
  destruct (truthy e.2) eqn:He; [by rewrite He|]. by destruct (truthy pages).
Qed.

Lemma fill_dangling_idemp (corpus : corpus_t) :
  Dict.wf corpus → fill_dangling (fill_dangling corpus) = fill_dangling corpus.
Proof.
  intros Hwf.
  rewrite (fill_dangling_eq (fill_dangling corpus)) by by apply wf_fill_dangling.
  assert (all_pages (fill_dangling corpus) = all_pages corpus) as ->.
  { unfold all_pages. by rewrite keys_fill_dangling. }
  rewrite fill_dangling_eq by done.
  rewrite <-list_fmap_compose. apply list_fmap_ext. intros _ e _.
  apply filled_idemp.
Qed.

(** X12. Running [iterate_pagerank] on the dictionary that an earlier call
    has rewritten changes nothing more: the dictionary stays as the first
    call left it, and the outcome is the one a call on the original corpus
    has. *)
Theorem iterate_pagerank_on_rewritten_corpus
    (fuel fuel' : nat) (corpus : corpus_t) (damping_factor damping_factor' : Qc) :
  Dict.wf corpus →
  let rewritten := (iterate_pagerank fuel' corpus damping_factor').1 in
  iterate_pagerank fuel rewritten damping_factor
  = (rewritten, (iterate_pagerank fuel corpus damping_factor).2).
Proof.
  intros Hwf. cbn zeta. unfold iterate_pagerank. cbn [fst snd].
  rewrite fill_dangling_idemp by done.
  assert (length (fill_dangling corpus) = length corpus) as ->; [|done].
  rewrite fill_dangling_eq by done. apply length_fmap.
Qed.

Lemma iterate_pagerank_on_rewritten_corpus_witness :
  let rewritten := (iterate_pagerank 1 ex3 damping).1 in
  iterate_pagerank 50 rewritten damping
  = (rewritten, (iterate_pagerank 50 ex3 damping).2).
Proof.
  apply (iterate_pagerank_on_rewritten_corpus 50 1 ex3 damping damping).
  by_computation.
Defined.

Section undamped.
Variables (corpus : corpus_t) (n : Qc).
Hypothesis corpus_wf : Dict.wf corpus.
Hypothesis n_ne_0 : n ≠ 0.

Let links := reverse_links corpus.
Let ks := Dict.keys corpus.
Let uniform : Dict.t Qc := (λ i, (i, 1 / n)) <$> ks.

Lemma target_0 x i : target corpus 0 n x i = 1 / n.
Proof. unfold target, Qcdiv. ring. Qed.

Lemma pass_steps_0 l change :
  (∀ i, i ∈ l → i ∈ ks) →
  foldM (pass_step corpus links 0 n) (uniform, change) l = Ok (uniform, change).
Proof.
  induction l as [|i l IH]; intros Hl; [done|].
  assert (i ∈ ks) as Hi by (apply Hl; left).
  assert (Dict.get uniform i = Some (1 / n)) as Hget.
  { unfold uniform. by rewrite get_fmap_keys, decide_True. }
  assert (rank uniform i = 1 / n) as Hrank by (unfold rank; by rewrite Hget).
  rewrite foldM_cons, (pass_step_Ok corpus 0 n corpus_wf n_ne_0)
    by (done || apply keys_fmap_keys).
  cbn zeta. rewrite target_0, Hrank, set_same by done.
  rewrite decide_False by apply Qclt_not_le, Qcabs_same.
  rewrite bind_Ok. apply IH. intros j Hj. apply Hl. by right.
Qed.

Lemma while_change_0 fuel :
  while_change (S fuel) corpus links 0 n uniform true = Some (Ok uniform).
Proof.
  rewrite while_change_S. unfold pass. rewrite pass_steps_0 by done.
  apply while_change_false.
Qed.

End undamped.

(** X13. With damping factor 0 the loop of [iterate_pagerank] makes one
    pass, in which no rank moves, and returns the ranks it started from:
    [1 / N] for every page of the corpus. *)
Theorem iterate_pagerank_without_damping (fuel : nat) (corpus : corpus_t) :
  Dict.wf corpus →
  (iterate_pagerank (S fuel) corpus 0).2
  = Some (Ok ((λ i, (i, 1 / Qc_of_nat (length corpus))) <$> Dict.keys corpus)).
Proof.
  intros Hwf. destruct (decide (corpus = [])) as [->|Hne].
  { by destruct fuel. }
  rewrite iterate_pagerank_loop by done.
  rewrite (while_change_0 _ _ (wf_fill_dangling _ Hwf) (corpus_length_ne_0 _ Hne)).
  by rewrite keys_fill_dangling.
Qed.

Lemma iterate_pagerank_without_damping_witness :
  (iterate_pagerank 1 ex3 0).2
  = Some (Ok ((λ i, (i, 1 / Qc_of_nat (length ex3))) <$> Dict.keys ex3)).
Proof.
  apply (iterate_pagerank_without_damping 0 ex3). by_computation.
Defined.

(** X14. The reverse index of lines 122-133 is the transpose of the graph
    it is built from: [j] is listed under [i] exactly when [i] is among the
    links of page [j]. *)
Theorem reverse_links_transpose (corpus : corpus_t) (i j : string) :
  Dict.wf corpus →
  (∃ sources, Dict.get (reverse_links corpus) i = Some sources ∧ j ∈ sources) ↔
  (∃ joins, Dict.get corpus j = Some joins ∧ i ∈ joins).
Proof.
  intros Hwf. rewrite <-(elem_of_back corpus i j Hwf), reverse_links_get.
  destruct (decide (back corpus i = ∅)) as [Hempty|Hne].
  - rewrite Hempty. split; [by intros (? & ? & ?) | by intros ?%not_elem_of_empty].
  - split; [by intros (? & [= <-] & ?) | eauto].
Qed.

Lemma reverse_links_transpose_witness :
  (∃ sources, Dict.get (reverse_links ex3) "B" = Some sources ∧ "A" ∈ sources) ↔
  (∃ joins, Dict.get ex3 "A" = Some joins ∧ "B" ∈ joins).
Proof. apply (reverse_links_transpose ex3 "B" "A"). by_computation. Defined.

(** X15. On a graph in which the reverse index was built, and for a rank
    dictionary over the pages of that graph, lines 144-156 do not raise and
    compute the update rule: [(1 - d) / N] plus [d] times the sum, over the
    pages [j] that link to [i], of [pr[j] / len(corpus[j])]; the branch for
    a page without incoming links gives the same formula with an empty
    sum. *)
Theorem new_value_update_rule
    (corpus : corpus_t) (damping_factor n : Qc) (pr : Dict.t Qc) (i : string) :
  Dict.wf corpus →
  n ≠ 0 →
  Dict.keys pr = Dict.keys corpus →
  new_value corpus (reverse_links corpus) damping_factor n pr i
  = Ok ((1 - damping_factor) / n
        + damping_factor
          * Qcsum ((λ j, if decide (i ∈ default ∅ (Dict.get corpus j))
                         then rank pr j / outdeg corpus j else 0)
                     <$> Dict.keys corpus)).
Proof.
  intros Hwf Hn Hkeys. rewrite new_value_Ok by done. unfold target.
  apply (f_equal Ok), (f_equal2 _ eq_refl), (f_equal2 _ eq_refl), (f_equal Qcsum).
  apply fmap_ext_in. intros j [joins Hget]%get_is_Some.
  rewrite (flow_alt corpus Hwf i j joins Hget), Hget. cbn [default from_option id].
  unfold outdeg. rewrite Hget. cbn [default from_option id].
  destruct (decide (i ∈ joins)); unfold Qcdiv; ring.
Qed.

Lemma new_value_update_rule_witness :
  new_value working3 (reverse_links working3) damping (Qc_of_nat 3) ranks3 "B"
  = Ok ((1 - damping) / Qc_of_nat 3
        + damping
          * Qcsum ((λ j, if decide ("B" ∈ default ∅ (Dict.get working3 j))
                         then rank ranks3 j / outdeg working3 j else 0)
                     <$> Dict.keys working3)).
Proof.
  apply (new_value_update_rule working3 damping (Qc_of_nat 3) ranks3 "B");
    by_computation.
Defined.

(** ** A damping factor that is not a number *)

Lemma nan_div (y : float) : (nan / y)%float = nan.
Proof. apply Prim2SF_inj. by rewrite div_spec. Qed.

Lemma nan_add (y : float) : (nan + y)%float = nan.
Proof. apply Prim2SF_inj. by rewrite add_spec. Qed.

Lemma sub_nan (x : float) : (x - nan)%float = nan.
Proof.
  apply Prim2SF_inj. rewrite sub_spec. change (Prim2SF nan) with S754_nan.
  by destruct (Prim2SF x).
Qed.

(** Overwriting every key of a dictionary by the same value. *)
Lemma foldl_set_all {V} (v : V) (pre post : Dict.t V) :
  Dict.wf (pre ++ post) →
  foldl (λ d k, Dict.set d k v) (pre ++ post) (Dict.keys post)
  = pre ++ ((λ e, (e.1, v)) <$> post).
Proof.
  revert pre. induction post as [|[k x] post IH]; intros pre Hwf; [done|].
  cbn [Dict.keys fmap list_fmap fst foldl].
  assert (k ∉ Dict.keys pre) as Hk.
  { unfold Dict.wf, Dict.keys in Hwf. rewrite fmap_app in Hwf.
    apply NoDup_app in Hwf as (_ & Hdisj & _). intros Hin.
    apply (Hdisj k Hin). left. }
  rewrite set_middle by done.
  rewrite (cons_middle (k, v)), app_assoc. fold (Dict.keys post).
  rewrite (IH (pre ++ [(k, v)])).
  - by rewrite <-app_assoc.
  - revert Hwf. unfold Dict.wf, Dict.keys. by rewrite !fmap_app, <-app_assoc.
Qed.

Section binary64_nan.
Variables (enum : string → gset string → list string).
Variables (corpus : corpus_t) (n : nat).
Hypothesis enum_ok : enumerates enum.
Hypothesis corpus_wf : Dict.wf corpus.
Hypothesis n_ne_0 : n ≠ 0%nat.

Let links := reverse_links corpus.
Let ks := Dict.keys corpus.

Lemma new_value64_nan (pr : Dict.t float) i :
  Dict.keys pr = ks →
  Binary64.new_value enum corpus links nan n pr i = Ok nan.
Proof.
  intros Hkeys.
  destruct (new_value64_Ok enum corpus nan n enum_ok corpus_wf n_ne_0 pr i Hkeys)
    as [new Hnew].
  fold links in Hnew. rewrite Hnew. f_equal. revert Hnew.
  unfold Binary64.new_value. rewrite pydiv64_Ok by done.
  change (1 - nan)%float with nan. rewrite nan_div.
  destruct (Dict.get links i) as [back|]; [|by intros [= <-]].
  destruct (foldM _ _ _) as [total|e]; [|done].
  cbn [mbind result_bind]. rewrite nan_add. by intros [= <-].
Qed.

Lemma pass_steps64_nan l (pr : Dict.t float) change :
  Dict.keys pr = ks → (∀ i, i ∈ l → i ∈ ks) →
  foldM (Binary64.pass_step enum corpus links nan n) (pr, change) l
  = Ok (foldl (λ d k, Dict.set d k nan) pr l, change).
Proof.
  revert pr. induction l as [|i l IH]; intros pr Hkeys Hl; [done|].
  assert (i ∈ ks) as Hi by (apply Hl; left).
  assert (is_Some (Dict.get pr i)) as [old Hold].
  { apply get_is_Some. by rewrite Hkeys. }
  assert (Binary64.pass_step enum corpus links nan n (pr, change) i
          = Ok (Dict.set pr i nan, change)) as Hstep.
  { unfold Binary64.pass_step. rewrite new_value64_nan by done.
    cbn [mbind result_bind]. unfold Dict.item. rewrite Hold.
    cbn [mbind result_bind]. by rewrite sub_nan. }
  rewrite foldM_cons, Hstep, bind_Ok. cbn [foldl]. apply IH.
  - rewrite keys_set_old; [done|]. by rewrite Hkeys.
  - intros j Hj. apply Hl. by right.
Qed.

Lemma while_change64_nan fuel (pr : Dict.t float) :
  Dict.keys pr = ks →
  Binary64.while_change enum (S fuel) corpus links nan n pr true
  = Some (Ok ((λ i, (i, nan)) <$> ks)).
Proof.
  intros Hkeys. rewrite while_change64_S. unfold Binary64.pass.
  fold ks. rewrite pass_steps64_nan by done.
  rewrite while_change64_false. do 2 f_equal.
  rewrite <-Hkeys. pose proof (foldl_set_all nan [] pr) as Hall.
  cbn [app] in Hall. rewrite Hall.
  - unfold Dict.keys. by rewrite <-list_fmap_compose.
  - unfold Dict.wf. by rewrite Hkeys.
Qed.

End binary64_nan.

(** X19. A damping factor that is [nan] is not refused: in binary64, on
    every non-empty corpus with distinct keys, [iterate_pagerank] makes one
    pass, in which every new value is [nan] and the test [diff >= 0.001] is
    false, and returns [nan] as the rank of every page. *)
Theorem iterate_pagerank_nan_damping
    (enum : string → gset string → list string) (fuel : nat) (corpus : corpus_t) :
  Dict.wf corpus →
  corpus ≠ [] →
  enumerates enum →
  (Binary64.iterate_pagerank enum (S fuel) corpus nan).2
  = Some (Ok ((λ i, (i, nan)) <$> Dict.keys corpus)).
Proof.
  intros Hwf Hne Henum. rewrite iterate_pagerank64_loop by done.
  rewrite (while_change64_nan enum (fill_dangling corpus) (length corpus)).
  - by rewrite keys_fill_dangling.
  - done.
  - by apply wf_fill_dangling.
  - by destruct corpus.
  - apply keys_fmap_keys.
Qed.

Lemma iterate_pagerank_nan_damping_witness :
  (Binary64.iterate_pagerank forwards 1 ex3 nan).2
  = Some (Ok ((λ i, (i, nan)) <$> Dict.keys ex3)).
Proof.
  apply (iterate_pagerank_nan_damping forwards 0 ex3).
  - by_computation.
  - done.
  - exact enumerates_forwards.
Defined.

(** ** The weighted draw *)

(** The binary search of [bisect_right] stops between an entry that is at
    most [x] and an entry above [x], whether or not the list is sorted. *)
Lemma bisect_spec fuel (a : list Qc) x lo hi :
  (lo ≤ hi)%nat → (hi - lo ≤ fuel)%nat →
  let k := bisect fuel a x lo hi in
  (k = lo ∨ default 0 (a !! (k - 1)%nat) ≤ x) ∧ (k = hi ∨ x < default 0 (a !! k)).
Proof.
  revert lo hi. induction fuel as [|fuel IH]; intros lo hi Hle Hfuel; cbn [bisect].
  - split; left; [done|lia].
  - destruct (decide (lo < hi)%nat) as [Hlt|]; [|split; left; [done|lia]].
    assert (lo ≤ (lo + hi) / 2 < hi)%nat as [Hmid1 Hmid2].
    { split; [apply Nat.div_le_lower_bound | apply Nat.div_lt_upper_bound]; lia. }
    destruct (decide (x < default 0 (a !! ((lo + hi) / 2)%nat))) as [Hx|Hx].
    + destruct (IH lo ((lo + hi) / 2)%nat) as [Hlow Hhigh]; [lia..|].
      split; [done|]. destruct Hhigh as [->|?]; by right.
    + destruct (IH ((lo + hi) / 2 + 1)%nat hi) as [Hlow Hhigh]; [lia..|].
      split; [|done]. right. destruct Hlow as [->|?]; [|done].
      replace ((lo + hi) / 2 + 1 - 1)%nat with ((lo + hi) / 2)%nat by lia.
      by apply Qcnot_lt_le.
Qed.

Lemma Qcsum_take_S (ws : list Qc) k w :
  ws !! k = Some w → Qcsum (take (S k) ws) = Qcsum (take k ws) + w.
Proof.
  revert k. induction ws as [|w0 ws IH]; intros [|k]; try done.
  - intros [= ->]. cbn. rewrite take_0. cbn. ring.
  - intros Hk. cbn [take Qcsum]. cbn [lookup list_lookup] in Hk.
    rewrite (IH k Hk). ring.
Qed.

Lemma lookup_accumulate acc (ws : list Qc) k :
  (k < length ws)%nat →
  accumulate acc ws !! k = Some (acc + Qcsum (take (S k) ws)).
Proof.
  revert acc k. induction ws as [|w ws IH]; intros acc k Hk; [cbn in Hk; lia|].
  cbn [accumulate]. destruct k as [|k].
  - cbn. rewrite take_0. cbn. f_equal. ring.
  - cbn [lookup list_lookup]. cbn [length] in Hk. rewrite IH by lia.
    f_equal. cbn [take Qcsum]. ring.
Qed.

Lemma scaled_below (u t : Qc) : 0 ≤ u → u < 1 → 0 < t → 0 ≤ u * t ∧ u * t < t.
Proof. intros. split; qc_nra. Qed.

(** [random.choices] never returns an element of weight 0. *)
Lemma choices_positive u (population : list string) (weights : list Qc) :
  population ≠ [] → length weights = length population → 0 < Qcsum weights →
  0 ≤ u → u < 1 →
  ∃ k x w,
    choices u population weights = Ok x ∧
    population !! k = Some x ∧ weights !! k = Some w ∧ 0 < w.
Proof.
  intros Hne Hlen Htotal Hu0 Hu1. unfold choices.
  rewrite decide_True by (by rewrite length_accumulate).
  rewrite last_accumulate by (intros ->; by destruct population).
  rewrite Qcplus_0_l, decide_False by by apply Qclt_not_le.
  destruct (scaled_below u _ Hu0 Hu1 Htotal) as [Hx0 Hx1].
  revert Hx0 Hx1. generalize (u * Qcsum weights). intros x Hx0 Hx1.
  assert (length population ≠ 0%nat) as Hn by by destruct population.
  pose proof (bisect_bounds (length population - 1) (accumulate 0 weights)
                x 0 (length population - 1) (Nat.le_0_l _)) as Hbounds.
  destruct (bisect_spec (length population - 1) (accumulate 0 weights)
              x 0 (length population - 1)) as [Hlow Hhigh]; [lia..|].
  revert Hbounds Hlow Hhigh. generalize (bisect (length population - 1)
    (accumulate 0 weights) x 0 (length population - 1)).
  intros k Hbounds Hlow Hhigh.
  assert (k < length population)%nat as Hk by lia.
  destruct (lookup_lt_is_Some_2 population k Hk) as [p Hp].
  destruct (lookup_lt_is_Some_2 weights k) as [w Hw]; [lia|].
  exists k, p, w. rewrite Hp. repeat split; [done..|].
  assert (Qcsum (take k weights) ≤ x) as Hbelow.
  { destruct Hlow as [->|Hlow]; [by rewrite take_0|].
    destruct k as [|k]; [by rewrite take_0|].
    replace (S k - 1)%nat with k in Hlow by lia.
    rewrite lookup_accumulate, Qcplus_0_l in Hlow by lia. done. }
  assert (x < Qcsum (take k weights) + w) as Habove.
  { rewrite <-(Qcsum_take_S _ _ _ Hw). destruct Hhigh as [->|Hhigh].
    - replace (S (length population - 1)) with (length weights) by lia.
      by rewrite firstn_all.
    - rewrite lookup_accumulate, Qcplus_0_l in Hhigh by lia. done. }
  revert Hbelow Habove. generalize (Qcsum (take k weights)). clear.
  intros s ??. qc_lra.
Qed.

Section follow_links.
Variables (g : rng) (corpus : corpus_t) (damping_factor : Qc).
Hypothesis corpus_wf : Dict.wf corpus.
Hypothesis corpus_closed : links_closed corpus.

Let ks := Dict.keys corpus.
Let probability : Dict.t (Dict.t Qc) :=
  (λ i, (i, distribution corpus damping_factor i)) <$> ks.

(** Line 101 never moves to a page to which the transition model gives
    probability 0. *)
Lemma next_state_positive state joins i :
  Dict.get corpus state = Some joins →
  0 ≤ random g i → random g i < 1 →
  ∃ state',
    next_state g probability state i = Ok state' ∧
    state' ∈ ks ∧
    0 < transition_probability (Qc_of_nat (length corpus)) joins
          damping_factor state'.
Proof.
  intros Hget Hu0 Hu1.
  assert (state ∈ ks) as Hstate by (apply get_is_Some; by exists joins).
  assert (corpus ≠ []) as Hne by (intros ->; by apply elem_of_nil in Hstate).
  unfold next_state, Dict.item, probability.
  rewrite get_fmap_keys, decide_True by done. cbn [mbind result_bind].
  assert (Dict.keys (distribution corpus damping_factor state) = ks) as Hkeys
    by apply keys_fmap_keys.
  destruct (choices_positive (random g i)
              (Dict.keys (distribution corpus damping_factor state))
              (Dict.values (distribution corpus damping_factor state)))
    as (k & state' & w & Hdraw & Hk & Hw & Hpos).
  - rewrite Hkeys. by apply keys_ne_nil.
  - unfold distribution. by rewrite values_fmap_keys, length_fmap, keys_fmap_keys.
  - by rewrite distribution_total.
  - exact Hu0.
  - exact Hu1.
  - exists state'. split; [done|]. rewrite Hkeys in Hk.
    split; [by eapply list_elem_of_lookup_2|].
    unfold distribution in Hw. rewrite values_fmap_keys, list_lookup_fmap in Hw.
    fold ks in Hw. rewrite Hk, Hget in Hw. cbn in Hw. by simplify_eq.
Qed.

End follow_links.

Lemma transition_probability_1 n (joins : gset string) q :
  joins ≠ ∅ → 0 < transition_probability n joins 1 q → q ∈ joins.
Proof.
  intros Hne. unfold transition_probability. rewrite decide_False by done.
  destruct (decide (q ∈ joins)); [done|].
  replace ((1 - 1) / n) with 0 by (unfold Qcdiv; ring). done.
Qed.

(** X18. With damping factor 1 the walk of [sample_pagerank] only follows
    links: from a page that has links, line 101 moves to one of the pages
    it links to, for every value in [0, 1) that [random()] may return. *)
Theorem next_state_follows_links
    (g : rng) (corpus : corpus_t) (state : string) (joins : gset string) (i : nat) :
  Dict.wf corpus →
  links_closed corpus →
  Dict.get corpus state = Some joins →
  joins ≠ ∅ →
  0 ≤ random g i →
  random g i < 1 →
  ∃ probability state',
    memoise corpus 1 = Ok probability ∧
    next_state g probability state i = Ok state' ∧
    state' ∈ joins.
Proof.
  intros Hwf Hclosed Hget Hne Hu0 Hu1.
  destruct (next_state_positive g corpus 1 Hwf Hclosed state joins i Hget Hu0 Hu1)
    as (state' & Hnext & _ & Hpos).
  eexists _, state'. split; [by apply memoise_Ok|]. split; [exact Hnext|].
  by eapply transition_probability_1.
Qed.

Lemma next_state_follows_links_witness :
  ∃ probability state',
    memoise ex3 1 = Ok probability ∧
    next_state g0 probability "A" 0 = Ok state' ∧
    state' ∈ ({["B"; "C"]} : gset string).
Proof.
  apply (next_state_follows_links g0 ex3 "A" {["B"; "C"]} 0); by_computation.
Defined.
